(** * ProfileMapperAPI: the matching engine of [src/matching.ts]

    A shallow embedding of the scoring core (string similarity, the seven
    field matchers, the weighted aggregator and the ranker) together with
    the properties stated about it.

    Conventions of the embedding.
    - A JavaScript string is the list of its UTF-16 code units ([jsstring]);
      [s.length] is [length s] and [s[i]] is the [i]-th unit.
    - An optional operand ([x?: string]) is an [option]; [undefined] is
      [None].  JavaScript truthiness of such an operand is [truthy].
    - Numbers that hold scores are exact rationals ([Q]); the IEEE-754
      rounding of the individual operations is not modelled.  Lengths,
      counts and matrix cells are [nat]; years are [Z].
    - What the engine takes from the host (lower-casing, date parsing, the
      clock) is the class [Runtime]; general theorems hold for every
      runtime, concrete evaluations use the instance [node]. *)

From Stdlib Require Import String Ascii.
From Stdlib Require Import List Arith ZArith NArith QArith Qround Bool Lia.
From Stdlib Require Import Permutation Sorted Lqa.
Import ListNotations.

Set Implicit Arguments.
Open Scope nat_scope.

(** ** Host strings and the built-ins the engine calls *)

Module Js.

Definition jsstring := list N.

(** A string literal of Basic Latin characters. *)
Definition lit (s : string) : jsstring :=
  map N_of_ascii (list_ascii_of_string s).

Definition eqb (a b : jsstring) : bool :=
  if list_eq_dec N.eq_dec a b then true else false.

(** [!s] for a string: only the empty string is falsy. *)
Definition isEmpty (s : jsstring) : bool :=
  match s with [] => true | _ :: _ => false end.

(** Truthiness of an optional string operand. *)
Definition truthy (o : option jsstring) : bool :=
  match o with Some (_ :: _) => true | _ => false end.

(** WhiteSpace and LineTerminator code units: what [\s] matches and what
    [trim] strips. *)
Definition isSpace (u : N) : bool :=
  ((9 <=? u) && (u <=? 13) || (u =? 32) || (u =? 160) || (u =? 5760)
   || (8192 <=? u) && (u <=? 8202) || (u =? 8232) || (u =? 8233)
   || (u =? 8239) || (u =? 8287) || (u =? 12288) || (u =? 65279))%N.

(** [\d] *)
Definition isDigit (u : N) : bool := ((48 <=? u) && (u <=? 57))%N.

Fixpoint dropWhile (p : N -> bool) (s : jsstring) : jsstring :=
  match s with
  | [] => []
  | u :: r => if p u then dropWhile p r else s
  end.

Fixpoint takeWhile (p : N -> bool) (s : jsstring) : jsstring :=
  match s with
  | [] => []
  | u :: r => if p u then u :: takeWhile p r else []
  end.

Definition trimStart (s : jsstring) : jsstring := dropWhile isSpace s.
Definition trimEnd (s : jsstring) : jsstring := rev (dropWhile isSpace (rev s)).

(** [s.trim()] *)
Definition trim (s : jsstring) : jsstring := trimEnd (trimStart s).

(** [s.startsWith(p)] *)
Fixpoint startsWith (s p : jsstring) : bool :=
  match p, s with
  | [], _ => true
  | _ :: _, [] => false
  | x :: p', y :: s' => (x =? y)%N && startsWith s' p'
  end.

(** [s.includes(p)] *)
Fixpoint includes (s p : jsstring) : bool :=
  startsWith s p ||
  match s with
  | [] => false
  | _ :: s' => includes s' p
  end.

(** [s.split(/\s+/)]: the pieces between maximal runs of white space, the
    empty pieces at either end included. *)
Fixpoint split_ws_from (cur : jsstring) (inRun : bool) (s : jsstring)
  : list jsstring :=
  match s with
  | [] => [rev cur]
  | u :: r =>
      if isSpace u
      then if inRun then split_ws_from [] true r
           else rev cur :: split_ws_from [] true r
      else split_ws_from (u :: cur) false r
  end.

Definition split_ws (s : jsstring) : list jsstring := split_ws_from [] false s.

(** [xs.filter(Boolean)] on an array of strings *)
Definition filterBoolean (xs : list jsstring) : list jsstring :=
  filter (fun w => negb (isEmpty w)) xs.

(** [xs.join(' ')] *)
Fixpoint join_space (xs : list jsstring) : jsstring :=
  match xs with
  | [] => []
  | [w] => w
  | w :: rest => w ++ 32%N :: join_space rest
  end.

(** [s.replace(/\s+/g, ' ')] *)
Fixpoint collapse_ws_from (inRun : bool) (s : jsstring) : jsstring :=
  match s with
  | [] => []
  | u :: r =>
      if isSpace u
      then if inRun then collapse_ws_from true r
           else 32%N :: collapse_ws_from true r
      else u :: collapse_ws_from false r
  end.

Definition collapse_ws (s : jsstring) : jsstring := collapse_ws_from false s.

(** [s.replace(/C/g, '')] for a one-unit class [C] (also [/C+/g]): every
    unit of the class is removed. *)
Definition removeAll (cls : N -> bool) (s : jsstring) : jsstring :=
  filter (fun u => negb (cls u)) s.

(** [s.replace(/C/g, ' ')] for a one-unit class [C]. *)
Definition blankAll (cls : N -> bool) (s : jsstring) : jsstring :=
  map (fun u => if cls u then 32%N else u) s.

(** [s.slice(-n)]: the last [n] units, the whole string when shorter. *)
Definition sliceLast (n : nat) (s : jsstring) : jsstring :=
  skipn (length s - n) s.

(** [s.split('@')[0]] *)
Definition beforeAt (s : jsstring) : jsstring :=
  takeWhile (fun u => negb (u =? 64)%N) s.

(** [parseInt(s)] on a string that starts with decimal digits, as the
    capture groups of the two date patterns do. *)
Definition parseInt (s : jsstring) : Z :=
  fold_left (fun acc u => acc * 10 + (Z.of_N u - 48))%Z (takeWhile isDigit s) 0%Z.

(** [x > y] on numbers *)
Definition gt (x y : Q) : bool := negb (Qle_bool x y).

(** [Math.round(x)]: the nearest integer, halves towards +infinity. *)
Definition Math_round (x : Q) : Z := Qfloor (x + (1 # 2))%Q.

End Js.

Import Js.

(** A valid [Date], as far as the engine looks at it. *)
Record Date := { getFullYear : Z }.

(** What the engine takes from the host. *)
Class Runtime := {
  (** [String.prototype.toLowerCase] *)
  toLowerCase : jsstring -> jsstring;
  (** [new Date(s)]; [None] is the invalid date, the one whose
      [getTime()] is [NaN]. *)
  newDate : jsstring -> option Date;
  (** [new Date().getFullYear()] *)
  currentYear : Z
}.

(** ** String similarity *)

(** Cells of [matrix: number[][]]. *)
Definition Matrix := list (list nat).

(** [xs[i] = v].  Inside the array the cell is replaced; at or past its end
    the array grows (the holes of a write past the end read as 0 here;
    the loops below only ever write at most one past the end). *)
Fixpoint array_set {A} (hole : A) (xs : list A) (i : nat) (v : A) : list A :=
  match i, xs with
  | 0, [] => [v]
  | 0, _ :: r => v :: r
  | S i', [] => hole :: array_set hole [] i' v
  | S i', x :: r => x :: array_set hole r i' v
  end.

Definition row (m : Matrix) (i : nat) : list nat := nth i m [].
Definition cell (m : Matrix) (i j : nat) : nat := nth j (row m i) 0.

(** [matrix[i][j] = v] *)
Definition cell_set (m : Matrix) (i j v : nat) : Matrix :=
  array_set [] m i (array_set 0 (row m i) j v).

(** [for (let k = lo; k <= hi; k++) body] as a state transformer. *)
Definition for_to {St} (lo hi : nat) (body : nat -> St -> St) (s : St) : St :=
  fold_left (fun st k => body k st) (seq lo (hi + 1 - lo)) s.

Definition min3 (x y z : nat) : nat := Nat.min (Nat.min x y) z.

Definition levenshtein (a b : jsstring) : nat :=
  let matrix : Matrix := [] in
  let matrix := for_to 0 (length b) (fun i m => array_set [] m i [i]) matrix in
  let matrix := for_to 0 (length a) (fun j m => cell_set m 0 j j) matrix in
  let matrix :=
    for_to 1 (length b) (fun i m =>
      for_to 1 (length a) (fun j m =>
        cell_set m i j
          (if (nth (i - 1) b 0 =? nth (j - 1) a 0)%N
           then cell m (i - 1) (j - 1)
           else min3 (cell m (i - 1) (j - 1) + 1)
                     (cell m i (j - 1) + 1)
                     (cell m (i - 1) j + 1))) m) matrix in
  cell matrix (length b) (length a).

Section Similarity.
Context {R : Runtime}.

Definition similarity (a b : jsstring) : Q :=
  let trimA := trim a in
  let trimB := trim b in
  if isEmpty trimA || isEmpty trimB then 0%Q else
  let maxLen := Nat.max (length trimA) (length trimB) in
  if maxLen =? 0 then 0%Q else
  (1 - inject_Z (Z.of_nat (levenshtein (toLowerCase trimA) (toLowerCase trimB)))
       / inject_Z (Z.of_nat maxLen))%Q.

End Similarity.

(** ** Regular expressions

    The two patterns of [extractYearFromBio] are kept as syntax and run by a
    backtracking matcher with the priorities of the host's engine: the left
    alternative first, quantifiers greedy, the leftmost start position
    first.  Quantifiers range over one-unit classes, which is all the two
    patterns need; there is one capture group. *)

Module Regex.

Inductive regex :=
| Eps
| Cls (cls : N -> bool)
| Seq (r1 r2 : regex)
| Alt (r1 r2 : regex)
| Opt (r : regex)
| Rep (lo : nat) (hi : option nat) (cls : N -> bool)
| Group (r : regex).

(** [C{lo,hi}] (no upper bound when [hi] is [None]), longest first. *)
Fixpoint greedy {X} (cls : N -> bool) (lo : nat) (hi : option nat)
    (s : jsstring) (k : jsstring -> option X) : option X :=
  let stop := if lo =? 0 then k s else None in
  match s with
  | [] => stop
  | u :: s' =>
      let more := match hi with Some 0 => false | _ => true end in
      if cls u && more
      then match greedy cls (pred lo) (option_map pred hi) s' k with
           | Some x => Some x
           | None => stop
           end
      else stop
  end.

(** [run r s cap k]: match [r] at the start of [s], then continue with [k]
    on the rest of the input and the capture; backtrack when [k] fails. *)
Fixpoint run {X} (r : regex) (s : jsstring) (cap : option jsstring)
    (k : jsstring -> option jsstring -> option X) : option X :=
  match r with
  | Eps => k s cap
  | Cls cls =>
      match s with
      | u :: s' => if cls u then k s' cap else None
      | [] => None
      end
  | Seq r1 r2 => run r1 s cap (fun s' cap' => run r2 s' cap' k)
  | Alt r1 r2 =>
      match run r1 s cap k with
      | Some x => Some x
      | None => run r2 s cap k
      end
  | Opt r1 =>
      match run r1 s cap k with
      | Some x => Some x
      | None => k s cap
      end
  | Rep lo hi cls => greedy cls lo hi s (fun s' => k s' cap)
  | Group r1 =>
      run r1 s cap (fun s' _ => k s' (Some (firstn (length s - length s') s)))
  end.

(** [s.match(r)] without the [g] flag: the leftmost match.  The result is
    what the caller reads: [null] is [None], otherwise the text of group 1. *)
Fixpoint search (r : regex) (s : jsstring) : option jsstring :=
  match run r s None (fun _ cap => Some cap) with
  | Some cap => Some (match cap with Some g => g | None => [] end)
  | None =>
      match s with
      | [] => None
      | _ :: s' => search r s'
      end
  end.

(** One character under the [i] flag: a Basic Latin letter matches in
    either case, anything else matches itself. *)
Definition ci (c : ascii) : N -> bool :=
  let u := N_of_ascii c in
  fun v =>
    ((v =? u)
     || (65 <=? u) && (u <=? 90) && (v =? u + 32)
     || (97 <=? u) && (u <=? 122) && (v =? u - 32))%N.

Fixpoint word (w : string) : regex :=
  match w with
  | EmptyString => Eps
  | String c EmptyString => Cls (ci c)
  | String c rest => Seq (Cls (ci c)) (word rest)
  end.

End Regex.

Import Regex.

(** ** Static tables *)

Section Tables.
Local Open Scope string_scope.

(** [NICKNAMES], in the order of [Object.entries]. *)
Definition NICKNAMES : list (jsstring * list jsstring) :=
  map (fun e => (lit (fst e), map lit (snd e)))
    [ ("william", ["will"; "bill"; "billy"]);
      ("robert", ["rob"; "bob"; "bobby"]);
      ("richard", ["rick"; "dick"; "rich"]);
      ("james", ["jim"; "jimmy"; "jamie"]);
      ("michael", ["mike"; "mikey"]);
      ("elizabeth", ["liz"; "beth"; "lizzy"; "betty"]);
      ("jennifer", ["jen"; "jenny"]);
      ("margaret", ["maggie"; "meg"; "peggy"]);
      ("katherine", ["kate"; "kathy"; "katie"]);
      ("jonathan", ["jon"; "john"; "johnny"]);
      ("christopher", ["chris"]);
      ("nicholas", ["nick"]);
      ("alexander", ["alex"]);
      ("benjamin", ["ben"]);
      ("daniel", ["dan"; "danny"]);
      ("matthew", ["matt"]);
      ("anthony", ["tony"]);
      ("joseph", ["joe"; "joey"]);
      ("david", ["dave"]) ].

(** [LOCATION_ALIASES], in the order of [Object.entries]. *)
Definition LOCATION_ALIASES : list (jsstring * list jsstring) :=
  map (fun e => (lit (fst e), map lit (snd e)))
    [ ("san francisco", ["sf"; "bay area"; "sf bay area"]);
      ("new york", ["nyc"; "new york city"; "ny"; "manhattan"]);
      ("los angeles", ["la"; "socal"]) ].

End Tables.

(** [new Set(xs).has(x)] *)
Definition has (xs : list jsstring) (x : jsstring) : bool :=
  existsb (eqb x) xs.

(** [for (const x of xs) { ...return... }]: the body answers [Some v] when
    it returns [v] and [None] when it falls through to the next element;
    [otherwise] is what follows the loop. *)
Fixpoint for_of {A X} (xs : list A) (body : A -> option X) (otherwise : X) : X :=
  match xs with
  | [] => otherwise
  | x :: rest =>
      match body x with
      | Some v => v
      | None => for_of rest body otherwise
      end
  end.

(** ** Helpers of the matchers *)

Section Helpers.
Context {R : Runtime}.

Definition areNicknameVariants (n1 n2 : jsstring) : bool :=
  let a := toLowerCase n1 in
  let b := toLowerCase n2 in
  if eqb a b then true else
  for_of NICKNAMES (fun entry =>
    let all := fst entry :: snd entry in
    if has all a && has all b then Some true else None) false.

Definition isDotOrComma (u : N) : bool := ((u =? 46) || (u =? 44))%N.

Definition normalizeLocation (loc : jsstring) : jsstring :=
  trim (collapse_ws (blankAll isDotOrComma (toLowerCase loc))).

Definition matchLocationAlias (loc1 loc2 : jsstring) : bool :=
  let n1 := normalizeLocation loc1 in
  let n2 := normalizeLocation loc2 in
  for_of LOCATION_ALIASES (fun entry =>
    let all := fst entry :: snd entry in
    if existsb (fun a => includes n1 a) all && existsb (fun a => includes n2 a) all
    then Some true else None) false.

Definition isNonDigit (u : N) : bool := negb (isDigit u).

Definition normalizePhone (phone : jsstring) : jsstring :=
  sliceLast 10 (removeAll isNonDigit phone).

Definition parseDate (dateStr : jsstring) : option Date := newDate dateStr.

(** [/born\s+(?:in\s+)?(\d{4})/i] *)
Definition bornPattern : regex :=
  Seq (word "born")
   (Seq (Rep 1 None isSpace)
     (Seq (Opt (Seq (word "in") (Rep 1 None isSpace)))
          (Group (Rep 4 (Some 4) isDigit)))).

(** [/(\d{1,2})\s*(?:years?\s*old|yo|y\/o)/i] *)
Definition agePattern : regex :=
  Seq (Group (Rep 1 (Some 2) isDigit))
   (Seq (Rep 0 None isSpace)
     (Alt (Seq (word "year")
            (Seq (Opt (word "s")) (Seq (Rep 0 None isSpace) (word "old"))))
          (Alt (word "yo") (word "y/o")))).

(** [number | null]: [null] is [None]. *)
Definition extractYearFromBio (bio : jsstring) : option Z :=
  match search bornPattern bio with
  | Some g1 => Some (parseInt g1)
  | None =>
      match search agePattern bio with
      | Some g1 =>
          let age := parseInt g1 in
          if (10 <? age)%Z && (age <? 100)%Z
          then Some (currentYear - age)%Z
          else None
      | None => None
      end
  end.

End Helpers.

(** ** The seven field matchers *)

(** [string | string[]] *)
Inductive OneOrMany :=
| One (s : jsstring)
| Many (xs : list jsstring).

(** Truthiness of [emails?: string | string[]]: an array is truthy even
    when empty. *)
Definition truthyOM (o : option OneOrMany) : bool :=
  match o with
  | Some (One s) => negb (isEmpty s)
  | Some (Many _) => true
  | None => false
  end.

(** [Array.isArray(x) ? x : [x]] *)
Definition asList (x : OneOrMany) : list jsstring :=
  match x with
  | One s => [s]
  | Many xs => xs
  end.

Section Matchers.
Context {R : Runtime}.
Open Scope Q_scope.

Definition matchName (personName profileName : option jsstring) : Q :=
  match option_map trim personName, option_map trim profileName with
  | Some ((_ :: _) as name1), Some ((_ :: _) as name2) =>
      let p1 := filterBoolean (split_ws (toLowerCase name1)) in
      let p2 := filterBoolean (split_ws (toLowerCase name2)) in
      if (length p1 =? 0)%nat || (length p2 =? 0)%nat then 0 else
      if eqb (join_space p1) (join_space p2) then 1 else
      if (0 <? length p1)%nat && (0 <? length p2)%nat
         && areNicknameVariants (hd [] p1) (hd [] p2)
      then
        if (1 <? length p1)%nat && (1 <? length p2)%nat
        then
          let lastSim := similarity (last p1 []) (last p2 []) in
          if gt lastSim 0.8 then 0.95 else 0.7
        else 0.7
      else
      if (length (hd [] p2) =? 1)%nat && startsWith (hd [] p1) (hd [] p2)
      then
        if (1 <? length p1)%nat && (1 <? length p2)%nat
        then 0.5 + similarity (last p1 []) (last p2 []) * 0.3
        else 0.4
      else similarity name1 name2
  | _, _ => 0
  end.

Definition matchLocation (personLoc profileLoc : option jsstring) : Q :=
  match personLoc, profileLoc with
  | Some ((_ :: _) as personLoc), Some ((_ :: _) as profileLoc) =>
      let n1 := normalizeLocation personLoc in
      let n2 := normalizeLocation profileLoc in
      if eqb n1 n2 then 1 else
      if matchLocationAlias personLoc profileLoc then 0.9 else
      if includes n1 n2 || includes n2 n1 then 0.85 else
      similarity n1 n2
  | _, _ => 0
  end.

(** [n / d] of two array lengths *)
Definition ratio (n d : nat) : Q :=
  inject_Z (Z.of_nat n) / inject_Z (Z.of_nat d).

Definition matchEmployerInBio (employer bio : option jsstring) : Q :=
  match employer, bio with
  | Some ((_ :: _) as employer), Some ((_ :: _) as bio) =>
      let e := toLowerCase employer in
      let b := toLowerCase bio in
      if includes b e then 1 else
      let words := filter (fun w => (2 <? length w)%nat) (split_ws e) in
      let matched := filter (fun w => includes b w) words in
      if (0 <? length matched)%nat
      then 0.5 * ratio (length matched) (length words)
      else 0
  | _, _ => 0
  end.

Definition matchJobTitleInBio (jobTitle bio : option jsstring) : Q :=
  match jobTitle, bio with
  | Some ((_ :: _) as jobTitle), Some ((_ :: _) as bio) =>
      let t := toLowerCase jobTitle in
      let b := toLowerCase bio in
      if includes b t then 1 else
      let words := filter (fun w => (3 <? length w)%nat) (split_ws t) in
      let matched := filter (fun w => includes b w) words in
      if (0 <? length matched)%nat
      then 0.6 * ratio (length matched) (length words)
      else
      if gt (similarity t b) 0.5 then similarity t b * 0.5 else 0
  | _, _ => 0
  end.

(** [/[._-]/] *)
Definition isSeparator (u : N) : bool := ((u =? 46) || (u =? 95) || (u =? 45))%N.

(** [s.replace(/[._-]/g, '').replace(/\d+/g, '')] *)
Definition stripped (s : jsstring) : jsstring :=
  removeAll isDigit (removeAll isSeparator s).

Definition matchEmailToUsername (emails : option OneOrMany)
    (username : option jsstring) : Q :=
  if negb (truthyOM emails) then 0 else
  match emails, username with
  | Some emails, Some ((_ :: _) as username) =>
      let list := asList emails in
      let uNorm := stripped (toLowerCase username) in
      for_of list (fun email =>
        let eUser := toLowerCase (beforeAt email) in
        let eNorm := stripped eUser in
        if eqb eUser (toLowerCase username) then Some 1
        else if eqb eNorm uNorm then Some 0.9
        else if includes uNorm eNorm || includes eNorm uNorm then Some 0.7
        else None) 0
  | _, _ => 0
  end.

Definition matchPhoneInBio (phones : option OneOrMany)
    (bio : option jsstring) : Q :=
  if negb (truthyOM phones) then 0 else
  match phones, bio with
  | Some phones, Some ((_ :: _) as bio) =>
      let list := asList phones in
      let bioDigits := removeAll isNonDigit bio in
      for_of list (fun phone =>
        let normalized := normalizePhone phone in
        if (7 <=? length normalized)%nat && includes bioDigits normalized
        then Some 1
        else if (7 <=? length normalized)%nat
                && includes bioDigits (sliceLast 7 normalized)
        then Some 0.8
        else None) 0
  | _, _ => 0
  end.

Definition matchDateOfBirth (dob bio : option jsstring) : Q :=
  match dob, bio with
  | Some ((_ :: _) as dob), Some ((_ :: _) as bio) =>
      match parseDate dob with
      | None => 0
      | Some personDate =>
          let personYear := getFullYear personDate in
          match extractYearFromBio bio with
          | Some bioYear =>
              (* [if (bioYear)]: the number 0 is falsy like [null] *)
              if (bioYear =? 0)%Z then 0 else
              if (bioYear =? personYear)%Z then 1 else
              if (Z.abs (bioYear - personYear) <=? 1)%Z then 0.7 else 0
          | None => 0
          end
      end
  | _, _ => 0
  end.

End Matchers.

(** ** Data model ([src/types.ts]) *)

Module Person.
Record t := {
  name : option jsstring;
  email : option OneOrMany;
  phone : option OneOrMany;
  location : option jsstring;
  dateOfBirth : option jsstring;
  employer : option jsstring;
  jobTitle : option jsstring
}.
End Person.

Module Profile.
Record t := {
  platform : jsstring;
  username : jsstring;
  displayName : option jsstring;
  display_name : option jsstring;
  bio : option jsstring;
  location : option jsstring;
  profileUrl : option jsstring;
  profile_url : option jsstring
}.
End Profile.

(** [MatchFactors]: the properties of the object in insertion order. *)
Definition MatchFactors := list (string * Q).

(** [factors[key] = v] *)
Fixpoint set_factor (key : string) (v : Q) (factors : MatchFactors) : MatchFactors :=
  match factors with
  | [] => [(key, v)]
  | (k, old) :: rest =>
      if String.eqb k key then (k, v) :: rest
      else (k, old) :: set_factor key v rest
  end.

Module MatchResult.
Record t := {
  profile : Profile.t;
  score : Q;
  factors : MatchFactors
}.
End MatchResult.

(** ** Weights and scoring *)

Module WEIGHTS.
Definition name : Q := 0.30.
Definition location : Q := 0.12.
Definition employer : Q := 0.18.
Definition emailUsername : Q := 0.18.
Definition jobTitle : Q := 0.10.
Definition phone : Q := 0.07.
Definition dateOfBirth : Q := 0.05.
End WEIGHTS.

(** The three variables [factors], [score] and [weight] that
    [calculateMatchScore] updates together. *)
Definition Tally := (MatchFactors * Q * Q)%type.

(** [factors.key = s; score += s * w; weight += w;] *)
Definition add_factor (key : string) (s w : Q) (t : Tally) : Tally :=
  let '(factors, score, weight) := t in
  (set_factor key s factors, score + s * w, weight + w)%Q.

(** [xs.sort(comparefn)], a built-in of the host.  ECMAScript (2019 on)
    requires a stable sort by [comparefn]: [x] goes after [y] exactly when
    [comparefn(x, y) > 0], and elements that compare equal keep their
    order.  For a consistent comparator that fixes the result; insertion
    from the right end computes it. *)
Fixpoint sort_insert {A} (comparefn : A -> A -> Q) (x : A) (sorted : list A)
  : list A :=
  match sorted with
  | [] => [x]
  | y :: rest =>
      if gt (comparefn x y) 0 then y :: sort_insert comparefn x rest
      else x :: y :: rest
  end.

Definition Array_sort {A} (comparefn : A -> A -> Q) (xs : list A) : list A :=
  fold_right (sort_insert comparefn) [] xs.

Section Scoring.
Context {R : Runtime}.
Open Scope Q_scope.

Definition calculateMatchScore (person : Person.t) (profile : Profile.t)
  : MatchResult.t :=
  let t : Tally := ([], 0, 0) in
  let displayName :=
    if truthy (Profile.displayName profile) then Profile.displayName profile
    else Profile.display_name profile in
  let t :=
    if truthy (Person.name person) && truthy displayName
    then add_factor "name_match"
           (matchName (Person.name person) displayName) WEIGHTS.name t
    else t in
  let t :=
    if truthy (Person.location person) && truthy (Profile.location profile)
    then add_factor "location_match"
           (matchLocation (Person.location person) (Profile.location profile))
           WEIGHTS.location t
    else t in
  let t :=
    if truthy (Person.employer person) && truthy (Profile.bio profile)
    then add_factor "employer_in_bio"
           (matchEmployerInBio (Person.employer person) (Profile.bio profile))
           WEIGHTS.employer t
    else t in
  let t :=
    if truthy (Person.jobTitle person) && truthy (Profile.bio profile)
    then add_factor "job_title_in_bio"
           (matchJobTitleInBio (Person.jobTitle person) (Profile.bio profile))
           WEIGHTS.jobTitle t
    else t in
  let t :=
    if truthyOM (Person.email person) && truthy (Some (Profile.username profile))
    then add_factor "email_username_match"
           (matchEmailToUsername (Person.email person)
              (Some (Profile.username profile)))
           WEIGHTS.emailUsername t
    else t in
  let t :=
    if truthyOM (Person.phone person) && truthy (Profile.bio profile)
    then add_factor "phone_in_bio"
           (matchPhoneInBio (Person.phone person) (Profile.bio profile))
           WEIGHTS.phone t
    else t in
  let t :=
    if truthy (Person.dateOfBirth person) && truthy (Profile.bio profile)
    then add_factor "dob_match"
           (matchDateOfBirth (Person.dateOfBirth person) (Profile.bio profile))
           WEIGHTS.dateOfBirth t
    else t in
  let '(factors, score, weight) := t in
  let finalScore :=
    if gt weight 0
    then inject_Z (Math_round (score / weight * 100)) / 100
    else 0 in
  {| MatchResult.profile := profile;
     MatchResult.score := finalScore;
     MatchResult.factors := factors |}.

Definition matchProfiles (person : Person.t) (profiles : list Profile.t)
  : list MatchResult.t :=
  Array_sort (fun a b => MatchResult.score b - MatchResult.score a)
    (map (fun p => calculateMatchScore person p) profiles).

End Scoring.

(** ** A concrete host

    [node] fixes the host for the evaluations below.  Its [toLowerCase]
    maps unit by unit and agrees with the built-in on Basic Latin, the
    Latin-1 Supplement, U+0130 (whose lower case is the two units U+0069
    U+0307) and on every unit without a lower-case mapping, digits,
    punctuation and surrogates among them; the strings evaluated below stay
    within these.  Its [Date] accepts the ISO form [YYYY-MM-DD], read in a
    zone without offset; the clock stands in 2026. *)

Module Node.

Definition lowerUnit (u : N) : jsstring :=
  if ((65 <=? u) && (u <=? 90))%N then [u + 32]%N
  else if ((192 <=? u) && (u <=? 222) && negb (u =? 215))%N then [u + 32]%N
  else if (u =? 304)%N then [105; 775]%N
  else [u].

Definition toLowerCase (s : jsstring) : jsstring := flat_map lowerUnit s.

Definition newDate (s : jsstring) : option Date :=
  match s with
  | [y1; y2; y3; y4; d1; m1; m2; d2; a1; a2] =>
      let month := parseInt [m1; m2] in
      let day := parseInt [a1; a2] in
      if forallb isDigit [y1; y2; y3; y4; m1; m2; a1; a2]
         && (d1 =? 45)%N && (d2 =? 45)%N
         && (1 <=? month)%Z && (month <=? 12)%Z
         && (1 <=? day)%Z && (day <=? 31)%Z
      then Some {| getFullYear := parseInt [y1; y2; y3; y4] |}
      else None
  | _ => None
  end.

End Node.

Definition node : Runtime :=
  {| toLowerCase := Node.toLowerCase;
     newDate := Node.newDate;
     currentYear := 2026 |}.

(** ** Sample inputs *)

Module Sample.

Definition named (n : jsstring) : Person.t :=
  {| Person.name := Some n; Person.email := None; Person.phone := None;
     Person.location := None; Person.dateOfBirth := None;
     Person.employer := None; Person.jobTitle := None |}.

Definition shown (user display : string) : Profile.t :=
  {| Profile.platform := lit "twitter"; Profile.username := lit user;
     Profile.displayName := Some (lit display); Profile.display_name := None;
     Profile.bio := None; Profile.location := None;
     Profile.profileUrl := None; Profile.profile_url := None |}.

(** A string operand that is there. *)
Definition str (s : string) : option jsstring := Some (lit s).

(** U+0130, LATIN CAPITAL LETTER I WITH DOT ABOVE, twice. *)
Definition dottedCapitals : jsstring := [304; 304]%N.

(** U+1F600 (a surrogate pair) followed by [a]. *)
Definition grinning_a : jsstring := [55357; 56832; 97]%N.

(** U+1D4B3 (a surrogate pair) followed by [a]. *)
Definition scriptX_a : jsstring := [55349; 56499; 97]%N.

End Sample.

(** * Specification side

    What the properties below are stated with: edit scripts and the edit
    distance, code points, the aggregator as a weighted mean, absent
    operands, the tiers of one email, descending order by a key. *)

(** ** Edit distance *)

(** [edits a b n]: [b] is obtained from [a] by a script of [n] unit-cost
    insertions, deletions and substitutions of single units. *)
Inductive edits : jsstring -> jsstring -> nat -> Prop :=
| edits_nil : edits [] [] 0
| edits_keep x a b n : edits a b n -> edits (x :: a) (x :: b) n
| edits_subst x y a b n : edits a b n -> edits (x :: a) (y :: b) (S n)
| edits_delete x a b n : edits a b n -> edits (x :: a) b (S n)
| edits_insert y a b n : edits a b n -> edits a (y :: b) (S n).

(** [d] is the edit distance: the cost of a cheapest script. *)
Definition is_edit_distance (a b : jsstring) (d : nat) : Prop :=
  edits a b d /\ forall n, edits a b n -> d <= n.

Definition cost (x y : N) : nat := if (x =? y)%N then 0 else 1.

(** The textbook recursion for the distance. *)
Fixpoint distance (a b : jsstring) {struct a} : nat :=
  match a with
  | [] => length b
  | x :: a' =>
      (fix to (b : jsstring) : nat :=
         match b with
         | [] => length a
         | y :: b' =>
             min3 (distance a' b' + cost x y) (to b' + 1) (distance a' b + 1)
         end) b
  end.

(** What [matrix[i][j]] is meant to hold: the distance between the first
    [j] units of [a] and the first [i] units of [b]. *)
Definition D (a b : jsstring) (i j : nat) : nat :=
  distance (firstn j a) (firstn i b).

Definition fullRow (a b : jsstring) (i : nat) : list nat :=
  map (D a b i) (seq 0 (length a + 1)).

(** After the first loop: one row [[i]] per prefix of [b]. *)
Definition rowsInit (b : jsstring) (m : Matrix) : Prop :=
  length m = length b + 1 /\ forall k, k <= length b -> row m k = [k].

(** Rows below [i] are complete, the rows from [i] on still are [[k]]. *)
Definition rowsDone (a b : jsstring) (i : nat) (m : Matrix) : Prop :=
  length m = length b + 1 /\
  (forall k, k < i -> row m k = fullRow a b k) /\
  (forall k, i <= k <= length b -> row m k = [k]).

(** Inside row [i]: the columns below [j] are filled. *)
Definition rowPartial (a b : jsstring) (i j : nat) (m : Matrix) : Prop :=
  length m = length b + 1 /\
  (forall k, k < i -> row m k = fullRow a b k) /\
  row m i = map (D a b i) (seq 0 j) /\
  (forall k, i < k <= length b -> row m k = [k]).

(** The body of the inner loop. *)
Definition fill (a b : jsstring) (i j : nat) (m : Matrix) : Matrix :=
  cell_set m i j
    (if (nth (i - 1) b 0 =? nth (j - 1) a 0)%N
     then cell m (i - 1) (j - 1)
     else min3 (cell m (i - 1) (j - 1) + 1)
               (cell m i (j - 1) + 1)
               (cell m (i - 1) j + 1)).

(** ** Code points *)

Definition isHighSurrogate (u : N) : bool := ((55296 <=? u) && (u <=? 56319))%N.
Definition isLowSurrogate (u : N) : bool := ((56320 <=? u) && (u <=? 57343))%N.

(** The code points of a string: a high surrogate followed by a low one
    is one code point, every other unit is one by itself. *)
Fixpoint codePoints (s : jsstring) : list N :=
  match s with
  | [] => []
  | u :: rest =>
      match rest with
      | v :: rest' =>
          if isHighSurrogate u && isLowSurrogate v
          then (65536 + (u - 55296) * 1024 + (v - 56320))%N :: codePoints rest'
          else u :: codePoints rest
      | [] => [u]
      end
  end.

Section SimilaritySpec.
Context {R : Runtime}.

(** [1 - levenshtein(lower(a), lower(b)) / max(len(a), len(b))] with the
    distance taken over code points; [len] is left open between the two
    ways of measuring a string. *)
Definition similarityOverCodePoints (len : jsstring -> nat) (a b : jsstring) : Q :=
  let trimA := trim a in
  let trimB := trim b in
  if isEmpty trimA || isEmpty trimB then 0%Q else
  (1 - inject_Z (Z.of_nat (distance (codePoints (toLowerCase trimA))
                                    (codePoints (toLowerCase trimB))))
       / inject_Z (Z.of_nat (Nat.max (len trimA) (len trimB))))%Q.

Definition lengthInCodePoints (s : jsstring) : nat := length (codePoints s).

End SimilaritySpec.

(** ** The aggregator as a weighted mean *)

(** One of the seven field pairs: whether both operands are present, what
    the matcher answers, and the weight. *)
Record FieldPair := {
  present : bool;
  matcherScore : Q;
  fieldWeight : Q
}.

Section AggregatorSpec.
Context {R : Runtime}.
Open Scope Q_scope.

(** [profile.displayName || profile.display_name] *)
Definition displayNameOf (profile : Profile.t) : option jsstring :=
  if truthy (Profile.displayName profile) then Profile.displayName profile
  else Profile.display_name profile.

Definition fieldPairs (person : Person.t) (profile : Profile.t) : list FieldPair :=
  let bio := Profile.bio profile in
  let username := Some (Profile.username profile) in
  [ {| present := truthy (Person.name person) && truthy (displayNameOf profile);
       matcherScore := matchName (Person.name person) (displayNameOf profile);
       fieldWeight := 0.30 |};
    {| present := truthy (Person.location person) && truthy (Profile.location profile);
       matcherScore := matchLocation (Person.location person) (Profile.location profile);
       fieldWeight := 0.12 |};
    {| present := truthy (Person.employer person) && truthy bio;
       matcherScore := matchEmployerInBio (Person.employer person) bio;
       fieldWeight := 0.18 |};
    {| present := truthyOM (Person.email person) && truthy username;
       matcherScore := matchEmailToUsername (Person.email person) username;
       fieldWeight := 0.18 |};
    {| present := truthy (Person.jobTitle person) && truthy bio;
       matcherScore := matchJobTitleInBio (Person.jobTitle person) bio;
       fieldWeight := 0.10 |};
    {| present := truthyOM (Person.phone person) && truthy bio;
       matcherScore := matchPhoneInBio (Person.phone person) bio;
       fieldWeight := 0.07 |};
    {| present := truthy (Person.dateOfBirth person) && truthy bio;
       matcherScore := matchDateOfBirth (Person.dateOfBirth person) bio;
       fieldWeight := 0.05 |} ].

Definition applicable (fs : list FieldPair) : list FieldPair := filter present fs.

Definition numerator (fs : list FieldPair) : Q :=
  fold_right (fun f acc => matcherScore f * fieldWeight f + acc) 0 fs.

Definition denominator (fs : list FieldPair) : Q :=
  fold_right (fun f acc => fieldWeight f + acc) 0 fs.

(** Rounding to two decimal places. *)
Definition round2 (x : Q) : Q := inject_Z (Math_round (x * 100)) / 100.

Definition overallScore (person : Person.t) (profile : Profile.t) : Q :=
  match applicable (fieldPairs person profile) with
  | [] => 0
  | fs => round2 (numerator fs / denominator fs)
  end.


Definition tallyScore (t : Tally) : Q := snd (fst t).
Definition tallyWeight (t : Tally) : Q := snd t.

(** What a guarded update adds. *)
Definition share (c : bool) (x : Q) : Q := if c then x else 0.

End AggregatorSpec.

(** ** Absent operands *)

(** Missing or empty: [!x]. *)
Definition missing (o : option jsstring) : bool := negb (truthy o).

(** Missing, empty or white space only: [!x?.trim()]. *)
Definition blank (o : option jsstring) : bool :=
  negb (truthy (option_map trim o)).

(** Missing, or the empty string; an array, even an empty one, is not. *)
Definition missingOM (o : option OneOrMany) : bool := negb (truthyOM o).

(** ** Tiers of one email *)

Section EmailSpec.
Context {R : Runtime}.

(** The local part of an email: the text before the first [@], the whole
    string when there is none. *)
Definition localPart (email : jsstring) : jsstring := beforeAt email.

(** The tier one email reaches against a username, if any. *)
Definition emailTier (username email : jsstring) : option Q :=
  let l := toLowerCase (localPart email) in
  let u := toLowerCase username in
  if eqb l u then Some 1%Q
  else if eqb (stripped l) (stripped u) then Some 0.9%Q
  else if includes (stripped u) (stripped l) || includes (stripped l) (stripped u)
  then Some 0.7%Q
  else None.


End EmailSpec.

(** ** Descending order by a key *)

Section ByKey.
Variable A : Type.
Variable key : A -> Q.

(** The comparator of [matchProfiles]: [(x, y) => key(y) - key(x)]. *)
Definition byKeyDescending (x y : A) : Q := (key y - key x)%Q.

Definition descending (x y : A) : Prop := (key y <= key x)%Q.

(** The elements whose key is [q], in the order of the list. *)
Definition withKey (q : Q) (l : list A) : list A :=
  filter (fun x => Qeq_bool (key x) q) l.

End ByKey.

(** ** The unit interval *)

Definition unit_interval (x : Q) : Prop := (0 <= x <= 1)%Q.

(** ** Patterns without a capture group *)

Fixpoint groupFree (r : regex) : bool :=
  match r with
  | Eps | Cls _ | Rep _ _ _ => true
  | Seq r1 r2 | Alt r1 r2 => groupFree r1 && groupFree r2
  | Opt r1 => groupFree r1
  | Group _ => false
  end.

(** * More of the engine: shapes and readings used below *)

(** ** Strings without white space at the ends *)

Definition startsClean (s : jsstring) : bool :=
  match s with [] => true | u :: _ => negb (isSpace u) end.
Definition endsClean (s : jsstring) : bool := startsClean (rev s).

(** ** Normalized locations and nickname groups *)

(** No two white-space units in a row. *)
Fixpoint singleSpaced (s : jsstring) : bool :=
  match s with
  | u :: rest =>
      match rest with
      | v :: _ => negb (isSpace u && isSpace v) && singleSpaced rest
      | [] => true
      end
  | [] => true
  end.

(** A unit a normalized location may hold: no period, no comma, and no
    white space other than U+0020. *)
Definition plainUnit (u : N) : bool :=
  negb (isDotOrComma u) && (negb (isSpace u) || (u =? 32)%N).

(** The shape [normalizeLocation] produces. *)
Definition canonicalLocation (s : jsstring) : bool :=
  forallb plainUnit s && singleSpaced s && startsClean s && endsClean s.

(** The groups of [areNicknameVariants]: a formal name with its nicknames. *)
Definition nicknameGroups : list (list jsstring) :=
  map (fun entry => fst entry :: snd entry) NICKNAMES.

Definition listEqb (g1 g2 : list jsstring) : bool :=
  if list_eq_dec (list_eq_dec N.eq_dec) g1 g2 then true else false.

(** No name belongs to two different groups. *)
Definition disjointGroups (groups : list (list jsstring)) : bool :=
  forallb (fun g1 =>
    forallb (fun g2 => listEqb g1 g2 || negb (existsb (has g2) g1)) groups) groups.

(** ** Name tokens *)

Section NameSpec.
Context {R : Runtime}.
(** The tokens [matchName] compares: the trimmed, lower-cased name split on
    white space; none when the operand is missing or blank. *)
Definition nameTokens (o : option jsstring) : list jsstring :=
  match option_map trim o with
  | Some ((_ :: _) as name) => filterBoolean (split_ws (toLowerCase name))
  | _ => []
  end.
End NameSpec.

(** A word: not empty and without white space. *)
Definition isWord (w : jsstring) : bool :=
  negb (isEmpty w) && forallb (fun u => negb (isSpace u)) w.

(** ** What a result reports *)

(** What one pair contributes to [factors]. *)
Definition factorEntry (c : bool) (key : string) (s : Q) : MatchFactors :=
  if c then [(key, s)] else [].

Section ScoreSpec.
Context {R : Runtime}.

(** The factors a result reports: one entry per present pair, in the order
    in which [calculateMatchScore] looks at the pairs. *)
Definition reportedFactors (person : Person.t) (profile : Profile.t) : MatchFactors :=
  let bio := Profile.bio profile in
  let username := Some (Profile.username profile) in
  factorEntry (truthy (Person.name person) && truthy (displayNameOf profile))
    "name_match" (matchName (Person.name person) (displayNameOf profile))
  ++ factorEntry (truthy (Person.location person) && truthy (Profile.location profile))
    "location_match"
    (matchLocation (Person.location person) (Profile.location profile))
  ++ factorEntry (truthy (Person.employer person) && truthy bio)
    "employer_in_bio" (matchEmployerInBio (Person.employer person) bio)
  ++ factorEntry (truthy (Person.jobTitle person) && truthy bio)
    "job_title_in_bio" (matchJobTitleInBio (Person.jobTitle person) bio)
  ++ factorEntry (truthyOM (Person.email person) && truthy username)
    "email_username_match" (matchEmailToUsername (Person.email person) username)
  ++ factorEntry (truthyOM (Person.phone person) && truthy bio)
    "phone_in_bio" (matchPhoneInBio (Person.phone person) bio)
  ++ factorEntry (truthy (Person.dateOfBirth person) && truthy bio)
    "dob_match" (matchDateOfBirth (Person.dateOfBirth person) bio).

End ScoreSpec.

(** The person without the fields that are matched against the bio. *)
Definition withoutBioFields (person : Person.t) : Person.t :=
  {| Person.name := Person.name person;
     Person.email := Person.email person;
     Person.phone := None;
     Person.location := Person.location person;
     Person.dateOfBirth := None;
     Person.employer := None;
     Person.jobTitle := None |}.

Definition withDisplayName (d : option jsstring) (profile : Profile.t) : Profile.t :=
  {| Profile.platform := Profile.platform profile;
     Profile.username := Profile.username profile;
     Profile.displayName := d;
     Profile.display_name := Profile.display_name profile;
     Profile.bio := Profile.bio profile;
     Profile.location := Profile.location profile;
     Profile.profileUrl := Profile.profileUrl profile;
     Profile.profile_url := Profile.profile_url profile |}.

Definition withDisplay_name (d : option jsstring) (profile : Profile.t) : Profile.t :=
  {| Profile.platform := Profile.platform profile;
     Profile.username := Profile.username profile;
     Profile.displayName := Profile.displayName profile;
     Profile.display_name := d;
     Profile.bio := Profile.bio profile;
     Profile.location := Profile.location profile;
     Profile.profileUrl := Profile.profileUrl profile;
     Profile.profile_url := Profile.profile_url profile |}.

(** Two results with the same score and the same factors. *)
Definition sameVerdict (r1 r2 : MatchResult.t) : Prop :=
  MatchResult.score r1 = MatchResult.score r2
  /\ MatchResult.factors r1 = MatchResult.factors r2.

(** ** Request validation ([src/types.ts]) and the handler ([src/index.ts]) *)

Set Warnings "-register-all".

(** The body of a request once [express.json()] has parsed it. *)
Inductive json :=
| JNull
| JBool (b : bool)
| JNumber (q : Q)
| JString (s : jsstring)
| JArray (xs : list json)
| JObject (props : list (jsstring * json)).

(** A JavaScript value; [undefined] is [None]. *)
Definition value := option json.

(** [o[key]] on the properties of an object. *)
Fixpoint get (props : list (jsstring * json)) (key : jsstring) : value :=
  match props with
  | [] => None
  | (k, v) :: rest => if eqb k key then Some v else get rest key
  end.

(** The schema combinators the file uses.  A schema parses a value or
    fails; the failure is the [ZodError] that [parse] throws. *)
Module Zod.

Definition schema (A : Type) := value -> option A.

(** [z.string()] *)
Definition string : schema jsstring :=
  fun v => match v with Some (JString s) => Some s | _ => None end.

(** [s.optional()] *)
Definition optional {A} (s : schema A) : schema (option A) :=
  fun v => match v with None => Some None | Some _ => option_map Some (s v) end.

(** [z.union([s1, s2])]: the first schema that accepts. *)
Definition union {A B} (s1 : schema A) (s2 : schema B) : schema (A + B) :=
  fun v =>
    match s1 v with
    | Some a => Some (inl a)
    | None => option_map inr (s2 v)
    end.

Fixpoint all {A} (s : schema A) (xs : list json) : option (list A) :=
  match xs with
  | [] => Some []
  | x :: rest =>
      match s (Some x), all s rest with
      | Some a, Some others => Some (a :: others)
      | _, _ => None
      end
  end.

(** [z.array(s)] *)
Definition array {A} (s : schema A) : schema (list A) :=
  fun v => match v with Some (JArray xs) => all s xs | _ => None end.

(** [s.min(n)] and [s.max(n)] on an array schema *)
Definition min {A} (n : nat) (s : schema (list A)) : schema (list A) :=
  fun v => match s v with
           | Some xs => if n <=? length xs then Some xs else None
           | None => None
           end.

Definition max {A} (n : nat) (s : schema (list A)) : schema (list A) :=
  fun v => match s v with
           | Some xs => if length xs <=? n then Some xs else None
           | None => None
           end.

(** [z.object({...})]: the value must be an object; [fields] reads the
    declared keys, any other key is dropped. *)
Definition object {A} (fields : list (jsstring * json) -> option A) : schema A :=
  fun v => match v with Some (JObject props) => fields props | _ => None end.

Definition bind {A B} (o : option A) (k : A -> option B) : option B :=
  match o with Some a => k a | None => None end.

End Zod.

Notation "x <- e ;; k" := (Zod.bind e (fun x => k))
  (at level 61, e at next level, right associativity).

(** [string | string[]] out of the union *)
Definition oneOrMany (x : jsstring + list jsstring) : OneOrMany :=
  match x with inl s => One s | inr xs => Many xs end.

Definition stringOrStrings : Zod.schema (option OneOrMany) :=
  fun v => option_map (option_map oneOrMany)
             (Zod.optional (Zod.union Zod.string (Zod.array Zod.string)) v).

Definition PersonSchema : Zod.schema Person.t :=
  Zod.object (fun o =>
    name <- Zod.optional Zod.string (get o (lit "name")) ;;
    email <- stringOrStrings (get o (lit "email")) ;;
    phone <- stringOrStrings (get o (lit "phone")) ;;
    location <- Zod.optional Zod.string (get o (lit "location")) ;;
    dateOfBirth <- Zod.optional Zod.string (get o (lit "dateOfBirth")) ;;
    employer <- Zod.optional Zod.string (get o (lit "employer")) ;;
    jobTitle <- Zod.optional Zod.string (get o (lit "jobTitle")) ;;
    Some {| Person.name := name; Person.email := email; Person.phone := phone;
            Person.location := location; Person.dateOfBirth := dateOfBirth;
            Person.employer := employer; Person.jobTitle := jobTitle |}).

Definition ProfileSchema : Zod.schema Profile.t :=
  Zod.object (fun o =>
    platform <- Zod.string (get o (lit "platform")) ;;
    username <- Zod.string (get o (lit "username")) ;;
    displayName <- Zod.optional Zod.string (get o (lit "displayName")) ;;
    display_name <- Zod.optional Zod.string (get o (lit "display_name")) ;;
    bio <- Zod.optional Zod.string (get o (lit "bio")) ;;
    location <- Zod.optional Zod.string (get o (lit "location")) ;;
    profileUrl <- Zod.optional Zod.string (get o (lit "profileUrl")) ;;
    profile_url <- Zod.optional Zod.string (get o (lit "profile_url")) ;;
    Some {| Profile.platform := platform; Profile.username := username;
            Profile.displayName := displayName;
            Profile.display_name := display_name;
            Profile.bio := bio; Profile.location := location;
            Profile.profileUrl := profileUrl;
            Profile.profile_url := profile_url |}).

Module MatchRequest.
Record t := {
  person : Person.t;
  profiles : list Profile.t
}.
End MatchRequest.

Definition MatchRequestSchema : Zod.schema MatchRequest.t :=
  Zod.object (fun o =>
    person <- PersonSchema (get o (lit "person")) ;;
    profiles <- Zod.max 20 (Zod.min 1 (Zod.array ProfileSchema))
                  (get o (lit "profiles")) ;;
    Some {| MatchRequest.person := person; MatchRequest.profiles := profiles |}).

(** What [POST /match] answers: the matches (status 200) or the
    validation error (status 400; its details are not modelled).  The
    handler's last branch, status 500, is for errors other than the
    schema's, and [matchProfiles] raises none. *)
Inductive Response :=
| Matches (matches : list MatchResult.t)
| ValidationError.

Definition status (r : Response) : nat :=
  match r with Matches _ => 200 | ValidationError => 400 end.

Section Handler.
Context {R : Runtime}.

Definition postMatch (body : value) : Response :=
  match MatchRequestSchema body with
  | Some data =>
      Matches (matchProfiles (MatchRequest.person data) (MatchRequest.profiles data))
  | None => ValidationError
  end.

End Handler.


(** ** More sample inputs *)

Module SampleMore.

(** The person and the profile of the suite's perfect match. *)
Definition janePerson : Person.t :=
  {| Person.name := Some (lit "Jane Doe");
     Person.email := Some (One (lit "janedoe@example.com"));
     Person.phone := Some (One (lit "555-123-4567"));
     Person.location := Some (lit "San Francisco, CA");
     Person.dateOfBirth := Some (lit "1990-05-15");
     Person.employer := Some (lit "Acme Corp");
     Person.jobTitle := Some (lit "Software Engineer") |}.

Definition janeProfile : Profile.t :=
  {| Profile.platform := lit "linkedin"; Profile.username := lit "janedoe";
     Profile.displayName := Some (lit "Jane Doe"); Profile.display_name := None;
     Profile.bio :=
       Some (lit "Software Engineer at Acme Corp | Born 1990 | 5551234567");
     Profile.location := Some (lit "San Francisco, CA");
     Profile.profileUrl := None; Profile.profile_url := None |}.

(** A profile that spells its display name [display_name]. *)
Definition snakeProfile : Profile.t :=
  {| Profile.platform := lit "twitter"; Profile.username := lit "jane";
     Profile.displayName := None; Profile.display_name := Some (lit "Jane Doe");
     Profile.bio := None; Profile.location := None;
     Profile.profileUrl := None; Profile.profile_url := None |}.

Definition field (key : string) (text : string) : jsstring * json :=
  (lit key, JString (lit text)).

Definition profileJson (user display : string) : json :=
  JObject [field "platform" "twitter"; field "username" user;
           field "displayName" display].

(** [{person: {name: "Jane"}, profiles: [...]}] *)
Definition requestWith (profiles : list json) : value :=
  Some (JObject [(lit "person", JObject [field "name" "Jane"]);
                 (lit "profiles", JArray profiles)]).

End SampleMore.

(** * Properties *)

(** ** Host strings *)

Lemma eqb_eq (a b : jsstring) : eqb a b = true <-> a = b.
Proof.
  unfold eqb. destruct (list_eq_dec N.eq_dec a b); split; congruence.
Qed.

Lemma eqb_refl (a : jsstring) : eqb a a = true.
Proof. now apply eqb_eq. Qed.

Lemma startsWith_nil (s : jsstring) : startsWith s [] = true.
Proof. now destruct s. Qed.

Lemma includes_nil (s : jsstring) : includes s [] = true.
Proof. destruct s; reflexivity. Qed.

Lemma gt_spec x y : gt x y = true <-> (y < x)%Q.
Proof.
  unfold gt. rewrite negb_true_iff. split.
  - intro H. apply Qnot_le_lt. intro L. apply Qle_bool_iff in L. congruence.
  - intro H. destruct (Qle_bool x y) eqn:E; [|reflexivity].
    apply Qle_bool_iff in E. exfalso. now apply (Qlt_not_le y x).
Qed.

Lemma gt_false x y : gt x y = false <-> (x <= y)%Q.
Proof. unfold gt. rewrite negb_false_iff. apply Qle_bool_iff. Qed.

(** ** Edit distance *)

Create HintDb edits.
#[local] Hint Constructors edits : edits.

Lemma distance_nil_r a : distance a [] = length a.
Proof. destruct a; reflexivity. Qed.

Lemma distance_cons x a y b :
  distance (x :: a) (y :: b) =
  min3 (distance a b + cost x y) (distance (x :: a) b + 1) (distance a (y :: b) + 1).
Proof. reflexivity. Qed.

Lemma edits_from_nil b : edits [] b (length b).
Proof. induction b; simpl; auto with edits. Qed.

Lemma edits_to_nil a : edits a [] (length a).
Proof. induction a; simpl; auto with edits. Qed.

Lemma distance_sound a : forall b, edits a b (distance a b).
Proof.
  induction a as [|x a IHa]; intro b.
  - apply edits_from_nil.
  - induction b as [|y b IHb].
    + rewrite distance_nil_r. apply edits_to_nil.
    + rewrite distance_cons. unfold min3.
      destruct (Nat.min_spec (distance a b + cost x y) (distance (x :: a) b + 1))
        as [[_ ->]|[_ ->]];
      match goal with |- edits _ _ (Nat.min ?p ?q) =>
        destruct (Nat.min_spec p q) as [[_ ->]|[_ ->]] end.
      * unfold cost. destruct (N.eqb_spec x y) as [->|_].
        -- rewrite Nat.add_0_r. auto with edits.
        -- rewrite Nat.add_1_r. auto with edits.
      * rewrite Nat.add_1_r. auto with edits.
      * rewrite Nat.add_1_r. auto with edits.
      * rewrite Nat.add_1_r. auto with edits.
Qed.

Lemma distance_least a b n : edits a b n -> distance a b <= n.
Proof.
  induction 1 as [|x a b n _ IH|x y a b n _ IH|x a b n _ IH|y a b n _ IH].
  - reflexivity.
  - rewrite distance_cons. unfold min3, cost. rewrite N.eqb_refl. lia.
  - rewrite distance_cons. unfold min3, cost. destruct (x =? y)%N; lia.
  - destruct b as [|y b].
    + rewrite distance_nil_r in *. simpl. lia.
    + rewrite distance_cons. unfold min3. lia.
  - destruct a as [|x a].
    + simpl in *. lia.
    + rewrite distance_cons. unfold min3. lia.
Qed.

Lemma distance_is_edit_distance a b : is_edit_distance a b (distance a b).
Proof. split; [apply distance_sound | apply distance_least]. Qed.

Lemma distance_refl a : distance a a = 0.
Proof.
  assert (H : edits a a 0) by (induction a; auto with edits).
  apply distance_least in H. lia.
Qed.

Lemma distance_bounded a : forall b, distance a b <= Nat.max (length a) (length b).
Proof.
  induction a as [|x a IH]; intro b; [simpl; lia|].
  destruct b as [|y b]; [rewrite distance_nil_r; lia|].
  rewrite distance_cons. specialize (IH b). unfold min3, cost. simpl length.
  destruct (x =? y)%N; lia.
Qed.

Lemma edits_sym a b n : edits a b n -> edits b a n.
Proof. induction 1; auto with edits. Qed.

Lemma edits_keep_snoc x a b n : edits a b n -> edits (a ++ [x]) (b ++ [x]) n.
Proof. induction 1; simpl; auto with edits. Qed.

Lemma edits_subst_snoc x y a b n :
  edits a b n -> edits (a ++ [x]) (b ++ [y]) (S n).
Proof. induction 1; simpl; auto with edits. Qed.

Lemma edits_delete_snoc x a b n : edits a b n -> edits (a ++ [x]) b (S n).
Proof. induction 1; simpl; auto with edits. Qed.

Lemma edits_insert_snoc y a b n : edits a b n -> edits a (b ++ [y]) (S n).
Proof. induction 1; simpl; auto with edits. Qed.

Lemma edits_rev a b n : edits a b n -> edits (rev a) (rev b) n.
Proof.
  induction 1; simpl;
    auto using edits_keep_snoc, edits_subst_snoc, edits_delete_snoc,
               edits_insert_snoc with edits.
Qed.

Lemma distance_sym a b : distance a b = distance b a.
Proof.
  apply Nat.le_antisymm; apply distance_least, edits_sym, distance_sound.
Qed.

Lemma distance_rev a b : distance (rev a) (rev b) = distance a b.
Proof.
  apply Nat.le_antisymm.
  - apply distance_least, edits_rev, distance_sound.
  - pose proof (edits_rev (distance_sound (rev a) (rev b))) as H.
    rewrite !rev_involutive in H. now apply distance_least.
Qed.

(** Dropping the first unit of the target costs at most one more edit. *)
Lemma edits_drop_target a b0 n :
  edits a b0 n -> forall y b, b0 = y :: b -> exists m, m <= S n /\ edits a b m.
Proof.
  induction 1 as [|x a b' n H IH|x z a b' n H IH|x a b' n H IH|z a b' n H IH];
    intros y b E.
  - discriminate.
  - injection E as -> ->. exists (S n). split; [lia | auto with edits].
  - injection E as -> ->. exists (S n). split; [lia | auto with edits].
  - destruct (IH y b E) as (m & Hm & Hed).
    exists (S m). split; [lia | auto with edits].
  - injection E as -> ->. exists n. split; [lia | assumption].
Qed.

Lemma distance_drop_target a y b : distance a b <= distance a (y :: b) + 1.
Proof.
  destruct (edits_drop_target (distance_sound a (y :: b)) eq_refl)
    as (m & Hm & Hed).
  apply distance_least in Hed. lia.
Qed.

Lemma distance_drop_source x a b : distance a b <= distance (x :: a) b + 1.
Proof.
  rewrite (distance_sym a b), (distance_sym (x :: a) b).
  apply distance_drop_target.
Qed.

(** The recurrence the matrix is filled with, read on the first units ... *)
Lemma distance_cons_shortcut x a y b :
  distance (x :: a) (y :: b) =
  if (x =? y)%N then distance a b
  else min3 (distance a b + 1) (distance a (y :: b) + 1) (distance (x :: a) b + 1).
Proof.
  rewrite distance_cons. unfold cost, min3.
  destruct (N.eqb_spec x y) as [->|_].
  - pose proof (distance_drop_target a y b).
    pose proof (distance_drop_source y a b). lia.
  - lia.
Qed.

(** ... and on the last units, which is how the loops read it. *)
Lemma distance_snoc_shortcut a x b y :
  distance (a ++ [x]) (b ++ [y]) =
  if (x =? y)%N then distance a b
  else min3 (distance a b + 1) (distance a (b ++ [y]) + 1) (distance (a ++ [x]) b + 1).
Proof.
  rewrite <- distance_rev, !rev_app_distr. simpl rev at 1 2. simpl app.
  rewrite distance_cons_shortcut.
  rewrite <- (distance_rev a b), <- (distance_rev a (b ++ [y])),
          <- (distance_rev (a ++ [x]) b), !rev_app_distr.
  reflexivity.
Qed.

(** ** The matrix of [levenshtein] *)

Lemma array_set_length_in A (hole : A) xs i v :
  i < length xs -> length (array_set hole xs i v) = length xs.
Proof.
  revert i; induction xs as [|x xs IH]; intros [|i] H; simpl in *; try lia.
  rewrite IH; lia.
Qed.

Lemma array_set_end A (hole : A) xs v :
  array_set hole xs (length xs) v = xs ++ [v].
Proof. induction xs as [|x xs IH]; simpl; [reflexivity | now rewrite IH]. Qed.

Lemma nth_array_set_same A (hole : A) xs i v d :
  i <= length xs -> nth i (array_set hole xs i v) d = v.
Proof.
  revert i; induction xs as [|x xs IH]; intros [|i] H; simpl in *; try lia;
    try reflexivity.
  apply IH; lia.
Qed.

Lemma nth_array_set_other A (hole : A) xs i k v d :
  i < length xs -> k <> i -> nth k (array_set hole xs i v) d = nth k xs d.
Proof.
  revert i k; induction xs as [|x xs IH]; intros [|i] [|k] H Hk;
    simpl in *; try lia; try reflexivity.
  apply IH; lia.
Qed.

Lemma row_cell_set_same m i j v :
  i < length m -> row (cell_set m i j v) i = array_set 0 (row m i) j v.
Proof.
  intro H. unfold cell_set, row at 1. apply nth_array_set_same. lia.
Qed.

Lemma row_cell_set_other m i j v k :
  i < length m -> k <> i -> row (cell_set m i j v) k = row m k.
Proof.
  intros H Hk. unfold cell_set, row at 1. now apply nth_array_set_other.
Qed.

Lemma cell_set_length m i j v :
  i < length m -> length (cell_set m i j v) = length m.
Proof. intro H. unfold cell_set. now apply array_set_length_in. Qed.

(** The rule for a counting loop. *)
Lemma for_to_invariant St (P : nat -> St -> Prop) lo hi body (s : St) :
  lo <= hi + 1 ->
  P lo s ->
  (forall k st, lo <= k <= hi -> P k st -> P (k + 1) (body k st)) ->
  P (hi + 1) (for_to lo hi body s).
Proof.
  intros Hle H0 Hstep. unfold for_to.
  remember (hi + 1 - lo) as n eqn:En.
  assert (Hhi : hi + 1 = lo + n) by lia. rewrite Hhi.
  assert (Hbound : forall k, lo <= k < lo + n -> lo <= k <= hi) by (intros; lia).
  clear En Hhi Hle. revert Hbound.
  induction n as [|n IH]; intro Hbound.
  - simpl. now rewrite Nat.add_0_r.
  - rewrite seq_S, fold_left_app. simpl.
    replace (lo + S n) with ((lo + n) + 1) by lia.
    apply Hstep; [apply Hbound; lia | apply IH; intros; apply Hbound; lia].
Qed.

Section Table.
Variables a b : jsstring.

Lemma D_row0 j : j <= length a -> D a b 0 j = j.
Proof.
  intro H. unfold D. simpl. rewrite distance_nil_r, length_firstn. lia.
Qed.

Lemma D_col0 i : i <= length b -> D a b i 0 = i.
Proof. intro H. unfold D. simpl. rewrite length_firstn. lia. Qed.

Lemma firstn_snoc (s : jsstring) k :
  k < length s -> firstn (k + 1) s = firstn k s ++ [nth k s 0%N].
Proof.
  revert k; induction s as [|u s IH]; intros k H; simpl in *; [lia|].
  destruct k as [|k]; simpl; [reflexivity|].
  rewrite IH by lia. reflexivity.
Qed.

Lemma D_step i j :
  1 <= i <= length b -> 1 <= j <= length a ->
  D a b i j =
  if (nth (i - 1) b 0 =? nth (j - 1) a 0)%N
  then D a b (i - 1) (j - 1)
  else min3 (D a b (i - 1) (j - 1) + 1) (D a b i (j - 1) + 1) (D a b (i - 1) j + 1).
Proof.
  intros Hi Hj. unfold D.
  remember (i - 1) as i' eqn:Ei. remember (j - 1) as j' eqn:Ej.
  assert (i = i' + 1) as -> by lia. assert (j = j' + 1) as -> by lia.
  clear Ei Ej. rewrite !firstn_snoc by lia.
  rewrite distance_snoc_shortcut. rewrite N.eqb_sym.
  destruct (nth i' b 0 =? nth j' a 0)%N; [reflexivity|].
  unfold min3. lia.
Qed.

Lemma fullRow0 : fullRow a b 0 = seq 0 (length a + 1).
Proof.
  unfold fullRow. rewrite <- (map_id (seq 0 (length a + 1))) at 2.
  apply map_ext_in. intros j Hj. apply in_seq in Hj. apply D_row0. lia.
Qed.

Lemma nth_fullRow i j : j <= length a -> nth j (fullRow a b i) 0 = D a b i j.
Proof.
  intro H. unfold fullRow.
  rewrite (nth_indep _ 0 (D a b i 0)) by (rewrite length_map, length_seq; lia).
  rewrite map_nth, seq_nth by lia. reflexivity.
Qed.

Lemma nth_partRow i j k :
  k < j -> nth k (map (D a b i) (seq 0 j)) 0 = D a b i k.
Proof.
  intro H.
  rewrite (nth_indep _ 0 (D a b i 0)) by (rewrite length_map, length_seq; lia).
  rewrite map_nth, seq_nth by lia. reflexivity.
Qed.

Lemma first_loop :
  rowsInit b (for_to 0 (length b) (fun i m => array_set [] m i [i]) []).
Proof.
  assert (H : for_to 0 (length b) (fun i m => array_set [] m i [i]) []
              = map (fun i => [i]) (seq 0 (length b + 1))).
  { apply (for_to_invariant
             (fun k m => m = map (fun i => [i]) (seq 0 k))); [lia|reflexivity|].
    intros k m _ ->.
    replace k with (length (map (fun i => [i]) (seq 0 k))) at 2
      by now rewrite length_map, length_seq.
    rewrite array_set_end, Nat.add_1_r, seq_S, map_app. reflexivity. }
  rewrite H. split.
  - now rewrite length_map, length_seq.
  - intros k Hk. unfold row.
    rewrite (nth_indep _ [] [0]) by (rewrite length_map, length_seq; lia).
    rewrite (map_nth (fun i => [i])), seq_nth by lia. reflexivity.
Qed.

Lemma second_loop m :
  rowsInit b m ->
  rowsDone a b 1 (for_to 0 (length a) (fun j m => cell_set m 0 j j) m).
Proof.
  intros [Hlen Hrows].
  pose (P := fun j (m : Matrix) =>
    length m = length b + 1 /\
    row m 0 = (if j =? 0 then [0] else seq 0 j) /\
    (forall k, 1 <= k <= length b -> row m k = [k])).
  assert (HP : P (length a + 1)
                 (for_to 0 (length a) (fun j m => cell_set m 0 j j) m)).
  { apply (for_to_invariant P); [lia| |].
    - repeat split; [assumption | apply Hrows; lia | intros; apply Hrows; lia].
    - intros j st Hj (L & R0 & Rk). repeat split.
      + rewrite cell_set_length; lia.
      + rewrite row_cell_set_same by lia. rewrite R0.
        destruct j as [|j]; [reflexivity|]. simpl Nat.eqb. cbv iota.
        replace (S j) with (length (seq 0 (S j))) at 2 by apply length_seq.
        rewrite array_set_end. rewrite Nat.add_1_r, (seq_S (S j)). reflexivity.
      + intros k Hk. rewrite row_cell_set_other by lia. now apply Rk. }
  destruct HP as (L & R0 & Rk). repeat split; try assumption.
  intros k Hk. assert (k = 0) as -> by lia.
  rewrite R0, fullRow0. now rewrite Nat.add_1_r.
Qed.

Lemma fill_step i j m :
  1 <= i <= length b -> 1 <= j <= length a ->
  rowPartial a b i j m -> rowPartial a b i (j + 1) (fill a b i j m).
Proof.
  intros Hi Hj (L & Done & Cur & Rest). unfold fill.
  assert (C1 : cell m (i - 1) (j - 1) = D a b (i - 1) (j - 1)).
  { unfold cell. rewrite Done by lia. apply nth_fullRow. lia. }
  assert (C2 : cell m i (j - 1) = D a b i (j - 1)).
  { unfold cell. rewrite Cur. apply nth_partRow. lia. }
  assert (C3 : cell m (i - 1) j = D a b (i - 1) j).
  { unfold cell. rewrite Done by lia. apply nth_fullRow. lia. }
  rewrite C1, C2, C3, <- D_step by lia.
  repeat split.
  - rewrite cell_set_length; lia.
  - intros k Hk. rewrite row_cell_set_other by lia. now apply Done.
  - rewrite row_cell_set_same by lia. rewrite Cur.
    replace j with (length (map (D a b i) (seq 0 j))) at 2
      by now rewrite length_map, length_seq.
    rewrite array_set_end, Nat.add_1_r, seq_S, map_app. reflexivity.
  - intros k Hk. rewrite row_cell_set_other by lia. now apply Rest.
Qed.

Lemma third_loop m :
  rowsDone a b 1 m ->
  rowsDone a b (length b + 1)
    (for_to 1 (length b)
       (fun i m => for_to 1 (length a) (fun j m => fill a b i j m) m) m).
Proof.
  intro H. apply (for_to_invariant (rowsDone a b)); [lia | assumption |].
  intros i st Hi (L & Done & Rest).
  assert (HP : rowPartial a b i (length a + 1)
                 (for_to 1 (length a) (fun j m => fill a b i j m) st)).
  { apply (for_to_invariant (rowPartial a b i)); [lia | |].
    - repeat split; try assumption.
      + rewrite Rest by lia. simpl. now rewrite D_col0 by lia.
      + intros k Hk. apply Rest. lia.
    - intros j st' Hj. now apply fill_step. }
  destruct HP as (L' & Done' & Cur' & Rest'). repeat split.
  - assumption.
  - intros k Hk. destruct (Nat.eq_dec k i) as [->|Hne].
    + exact Cur'.
    + apply Done'. lia.
  - intros k Hk. apply Rest'. lia.
Qed.

End Table.

(** The loops compute the distance between [a] and [b]. *)
Lemma levenshtein_distance a b : levenshtein a b = distance a b.
Proof.
  unfold levenshtein.
  pose proof (third_loop (second_loop a (first_loop b))) as (_ & Done & _).
  change (fun i m => for_to 1 (length a) (fun j m0 => cell_set m0 i j _) m)
    with (fun i m => for_to 1 (length a) (fun j m0 => fill a b i j m0) m).
  unfold cell. rewrite Done by lia. rewrite nth_fullRow by lia.
  unfold D. now rewrite !firstn_all.
Qed.

Lemma levenshtein_is_edit_distance a b : is_edit_distance a b (levenshtein a b).
Proof. rewrite levenshtein_distance. apply distance_is_edit_distance. Qed.

(** ** Similarity *)

Section SimilarityFacts.
Context {R : Runtime}.

Lemma similarity_formula a b :
  similarity a b =
  if isEmpty (trim a) || isEmpty (trim b) then 0%Q else
  (1 - inject_Z (Z.of_nat (levenshtein (toLowerCase (trim a)) (toLowerCase (trim b))))
       / inject_Z (Z.of_nat (Nat.max (length (trim a)) (length (trim b)))))%Q.
Proof.
  unfold similarity. cbv zeta.
  destruct (trim a) as [|u ta]; [reflexivity|].
  destruct (trim b) as [|v tb]; reflexivity.
Qed.

Lemma similarity_self a :
  (similarity a a == if isEmpty (trim a) then 0 else 1)%Q.
Proof.
  rewrite similarity_formula, levenshtein_distance, distance_refl.
  destruct (trim a) as [|u ta]; simpl isEmpty; simpl orb; cbv iota.
  - reflexivity.
  - unfold Qdiv. simpl inject_Z at 1. ring.
Qed.

Lemma ratio_bounds (n d : nat) :
  n <= d -> 0 < d ->
  (0 <= inject_Z (Z.of_nat n) / inject_Z (Z.of_nat d) <= 1)%Q.
Proof.
  intros Hle Hpos.
  assert (Hd : (0 < inject_Z (Z.of_nat d))%Q).
  { rewrite <- (Zlt_Qlt 0). lia. }
  assert (Hn : (0 <= inject_Z (Z.of_nat n))%Q).
  { rewrite <- (Zle_Qle 0). lia. }
  assert (Hnd : (inject_Z (Z.of_nat n) <= inject_Z (Z.of_nat d))%Q).
  { rewrite <- Zle_Qle. lia. }
  split.
  - apply Qle_shift_div_l; [exact Hd|]. lra.
  - apply Qle_shift_div_r; [exact Hd|]. lra.
Qed.

Lemma similarity_le_1 a b : (similarity a b <= 1)%Q.
Proof.
  rewrite similarity_formula.
  destruct (isEmpty (trim a) || isEmpty (trim b)) eqn:E; [lra|].
  apply orb_false_iff in E as [Ea Eb].
  set (n := levenshtein _ _). set (d := Nat.max _ _).
  assert (Hd : (0 < inject_Z (Z.of_nat d))%Q).
  { rewrite <- (Zlt_Qlt 0). subst d. destruct (trim a); [discriminate|].
    cbn [length]. lia. }
  assert (Hn : (0 <= inject_Z (Z.of_nat n))%Q).
  { rewrite <- (Zle_Qle 0). lia. }
  assert (0 <= inject_Z (Z.of_nat n) / inject_Z (Z.of_nat d))%Q.
  { apply Qle_shift_div_l; [exact Hd|]. lra. }
  lra.
Qed.

(** The similarity is not negative as long as lower-casing does not
    lengthen the two trimmed strings. *)
Lemma similarity_ge_0 a b :
  length (toLowerCase (trim a)) <= length (trim a) ->
  length (toLowerCase (trim b)) <= length (trim b) ->
  (0 <= similarity a b)%Q.
Proof.
  intros Ha Hb. rewrite similarity_formula.
  destruct (isEmpty (trim a) || isEmpty (trim b)) eqn:E; [lra|].
  apply orb_false_iff in E as [Ea Eb].
  rewrite levenshtein_distance.
  pose proof (distance_bounded (toLowerCase (trim a)) (toLowerCase (trim b))) as B.
  assert (Hpos : 0 < Nat.max (length (trim a)) (length (trim b))).
  { destruct (trim a); [discriminate|]. cbn [length]. lia. }
  pose proof (@ratio_bounds
    (distance (toLowerCase (trim a)) (toLowerCase (trim b)))
    (Nat.max (length (trim a)) (length (trim b)))) as RB.
  destruct RB as [_ RB]; [lia | exact Hpos |]. lra.
Qed.

End SimilarityFacts.

(** ** Stable sorting by a key *)

Section SortByKey.
Variable A : Type.
Variable key : A -> Q.

Lemma comparefn_after x y :
  gt (byKeyDescending key x y) 0 = true <-> (key x < key y)%Q.
Proof.
  rewrite gt_spec. unfold byKeyDescending. split; intro H; lra.
Qed.

Lemma comparefn_not_after x y :
  gt (byKeyDescending key x y) 0 = false <-> (key y <= key x)%Q.
Proof.
  rewrite gt_false. unfold byKeyDescending. split; intro H; lra.
Qed.

Lemma sort_insert_perm x l :
  Permutation (sort_insert (byKeyDescending key) x l) (x :: l).
Proof.
  induction l as [|y l IH]; simpl; [reflexivity|].
  destruct (gt (byKeyDescending key x y) 0); [|reflexivity].
  rewrite IH. apply perm_swap.
Qed.

Lemma Array_sort_perm l : Permutation (Array_sort (byKeyDescending key) l) l.
Proof.
  induction l as [|x l IH]; simpl; [reflexivity|].
  fold (Array_sort (byKeyDescending key) l).
  rewrite sort_insert_perm. now apply perm_skip.
Qed.

Lemma sort_insert_sorted x l :
  Sorted (descending key) l ->
  Sorted (descending key) (sort_insert (byKeyDescending key) x l).
Proof.
  induction 1 as [|y l Hs IH Hd]; simpl.
  - repeat constructor.
  - destruct (gt (byKeyDescending key x y) 0) eqn:E.
    + constructor; [exact IH|].
      apply comparefn_after in E.
      destruct l as [|z l]; simpl.
      * constructor. unfold descending. now apply Qlt_le_weak.
      * destruct (gt (byKeyDescending key x z) 0).
        -- constructor. now inversion Hd.
        -- constructor. unfold descending. now apply Qlt_le_weak.
    + apply comparefn_not_after in E.
      constructor; [now constructor | now constructor].
Qed.

Lemma Array_sort_sorted l :
  Sorted (descending key) (Array_sort (byKeyDescending key) l).
Proof.
  induction l as [|x l IH]; simpl; [constructor|].
  now apply sort_insert_sorted.
Qed.

Lemma descending_trans : Relations_1.Transitive (descending key).
Proof.
  intros x y z H1 H2. unfold descending in *. now apply Qle_trans with (key y).
Qed.

Lemma sort_insert_stable q x l :
  withKey key q (sort_insert (byKeyDescending key) x l) = withKey key q (x :: l).
Proof.
  induction l as [|y l IH]; [reflexivity|].
  simpl sort_insert.
  destruct (gt (byKeyDescending key x y) 0) eqn:E; [|reflexivity].
  apply comparefn_after in E.
  unfold withKey in *. simpl in *.
  destruct (Qeq_bool (key x) q) eqn:Ex.
  - assert (Ey : Qeq_bool (key y) q = false).
    { apply not_true_is_false. intro Ey.
      apply Qeq_bool_iff in Ex, Ey. rewrite Ex, Ey in E.
      exact (Qlt_irrefl _ E). }
    rewrite Ey. exact IH.
  - rewrite IH. reflexivity.
Qed.

Lemma Array_sort_stable q l :
  withKey key q (Array_sort (byKeyDescending key) l) = withKey key q l.
Proof.
  induction l as [|x l IH]; [reflexivity|].
  simpl Array_sort. fold (Array_sort (byKeyDescending key) l).
  rewrite sort_insert_stable. unfold withKey in *. simpl. now rewrite IH.
Qed.

End SortByKey.

(** ** Absent operands *)

Ltac operand o := destruct o as [[|? ?]|]; try reflexivity; try discriminate.

Section Missing.
Context {R : Runtime}.


Lemma matchName_blank p q : blank p || blank q = true -> matchName p q = 0%Q.
Proof.
  unfold blank, matchName. intro H.
  destruct (option_map trim p) as [[|? ?]|]; try reflexivity;
    destruct (option_map trim q) as [[|? ?]|]; try reflexivity; discriminate.
Qed.

Lemma matchLocation_missing p q :
  missing p || missing q = true -> matchLocation p q = 0%Q.
Proof. unfold missing. intro H. operand p; operand q. Qed.

Lemma matchEmployerInBio_missing p q :
  missing p || missing q = true -> matchEmployerInBio p q = 0%Q.
Proof. unfold missing. intro H. operand p; operand q. Qed.

Lemma matchJobTitleInBio_missing p q :
  missing p || missing q = true -> matchJobTitleInBio p q = 0%Q.
Proof. unfold missing. intro H. operand p; operand q. Qed.

Lemma matchEmailToUsername_missing e u :
  missingOM e || missing u = true -> matchEmailToUsername e u = 0%Q.
Proof.
  unfold missingOM, missing, matchEmailToUsername. intro H.
  destruct (truthyOM e) eqn:E; [|reflexivity].
  destruct e as [e|]; [|discriminate]. operand u.
Qed.

Lemma matchEmailToUsername_empty u :
  matchEmailToUsername (Some (Many [])) u = 0%Q.
Proof. unfold matchEmailToUsername. simpl. operand u. Qed.

Lemma matchPhoneInBio_missing p b :
  missingOM p || missing b = true -> matchPhoneInBio p b = 0%Q.
Proof.
  unfold missingOM, missing, matchPhoneInBio. intro H.
  destruct (truthyOM p) eqn:E; [|reflexivity].
  destruct p as [p|]; [|discriminate]. operand b.
Qed.

Lemma matchPhoneInBio_empty b : matchPhoneInBio (Some (Many [])) b = 0%Q.
Proof. unfold matchPhoneInBio. simpl. operand b. Qed.

Lemma matchDateOfBirth_missing d b :
  missing d || missing b = true -> matchDateOfBirth d b = 0%Q.
Proof. unfold missing. intro H. operand d; operand b. Qed.

Lemma matchDateOfBirth_malformed d b :
  parseDate d = None -> matchDateOfBirth (Some d) b = 0%Q.
Proof.
  intro H. unfold matchDateOfBirth. destruct d; [reflexivity|].
  operand b. now rewrite H.
Qed.

End Missing.

(** ** The aggregator *)

Section AggregatorFacts.
Context {R : Runtime}.
Open Scope Q_scope.

Lemma tallyScore_step (c : bool) key s w t :
  tallyScore (if c then add_factor key s w t else t)
  == tallyScore t + share c (s * w).
Proof.
  destruct t as [[f sc] wt]. destruct c; unfold tallyScore, share; simpl; ring.
Qed.

Lemma tallyWeight_step (c : bool) key s w t :
  tallyWeight (if c then add_factor key s w t else t)
  == tallyWeight t + share c w.
Proof.
  destruct t as [[f sc] wt]. destruct c; unfold tallyWeight, share; simpl; ring.
Qed.

Lemma numerator_applicable fs :
  numerator (applicable fs)
  == fold_right (fun f acc =>
       share (present f) (matcherScore f * fieldWeight f) + acc) 0 fs.
Proof.
  induction fs as [|f fs IH]; simpl; [reflexivity|].
  destruct (present f); simpl; rewrite IH; unfold share; ring.
Qed.

Lemma denominator_applicable fs :
  denominator (applicable fs)
  == fold_right (fun f acc => share (present f) (fieldWeight f) + acc) 0 fs.
Proof.
  induction fs as [|f fs IH]; simpl; [reflexivity|].
  destruct (present f); simpl; rewrite IH; unfold share; ring.
Qed.

Lemma denominator_positive fs :
  Forall (fun f => 0 < fieldWeight f) fs -> fs <> [] -> 0 < denominator fs.
Proof.
  intros H Hne. induction H as [|f fs Hf Hfs IH]; [congruence|].
  simpl. destruct fs as [|g fs].
  - simpl. lra.
  - assert (0 < denominator (g :: fs)) by (apply IH; discriminate). lra.
Qed.

Lemma Forall_applicable (P : FieldPair -> Prop) fs :
  Forall P fs -> Forall P (applicable fs).
Proof.
  intro H. apply Forall_forall. intros f Hf.
  apply filter_In in Hf. rewrite Forall_forall in H. now apply H.
Qed.

#[local] Instance round2_proper : Proper (Qeq ==> Qeq) round2.
Proof.
  intros x y E. unfold round2, Math_round.
  assert (Qfloor (x * 100 + (1 # 2)) = Qfloor (y * 100 + (1 # 2))) as ->.
  { apply Qfloor_comp. now rewrite E. }
  reflexivity.
Qed.

Lemma round2_one : round2 1 == 1.
Proof. reflexivity. Qed.

(** The score read off the last tally. *)
Lemma score_of_tally (t : Tally) profile :
  MatchResult.score
    (let '(factors, score, weight) := t in
     {| MatchResult.profile := profile;
        MatchResult.score :=
          if gt weight 0
          then inject_Z (Math_round (score / weight * 100)) / 100
          else 0;
        MatchResult.factors := factors |})
  = if gt (tallyWeight t) 0 then round2 (tallyScore t / tallyWeight t) else 0.
Proof. destruct t as [[f sc] wt]. reflexivity. Qed.

Lemma fieldPairs_weights person profile :
  Forall (fun f => 0 < fieldWeight f) (fieldPairs person profile).
Proof. unfold fieldPairs. repeat constructor. Qed.

Ltac unfold_weights :=
  unfold WEIGHTS.name, WEIGHTS.location, WEIGHTS.employer, WEIGHTS.jobTitle,
    WEIGHTS.emailUsername, WEIGHTS.phone, WEIGHTS.dateOfBirth.

Lemma calculateMatchScore_overall person profile :
  MatchResult.score (calculateMatchScore person profile)
  == overallScore person profile.
Proof.
  unfold calculateMatchScore. cbv zeta. fold (displayNameOf profile).
  rewrite score_of_tally.
  match goal with
  | |- context [tallyWeight ?T] => set (t := T)
  end.
  assert (Hs : tallyScore t == numerator (applicable (fieldPairs person profile))).
  { rewrite numerator_applicable. subst t.
    rewrite !tallyScore_step. unfold fieldPairs, tallyScore. simpl.
    unfold_weights. ring. }
  assert (Hw : tallyWeight t == denominator (applicable (fieldPairs person profile))).
  { rewrite denominator_applicable. subst t.
    rewrite !tallyWeight_step. unfold fieldPairs, tallyWeight. simpl.
    unfold_weights. ring. }
  clearbody t. unfold overallScore.
  pose proof (Forall_applicable (fieldPairs_weights person profile)) as Hpos.
  destruct (applicable (fieldPairs person profile)) as [|f fs] eqn:E.
  - simpl in Hw.
    assert (G : gt (tallyWeight t) 0 = false) by (apply gt_false; lra).
    rewrite G. reflexivity.
  - assert (0 < denominator (f :: fs))
      by (apply denominator_positive; [exact Hpos | discriminate]).
    assert (G : gt (tallyWeight t) 0 = true) by (apply gt_spec; lra).
    rewrite G. now rewrite Hs, Hw.
Qed.



End AggregatorFacts.

(** ** The patterns of [extractYearFromBio] *)

Lemma greedy_consumes X cls : forall s lo hi (k : jsstring -> option X) x,
  greedy cls lo hi s k = Some x ->
  exists pre s', s = pre ++ s' /\ forallb cls pre = true /\ lo <= length pre /\
    (forall h, hi = Some h -> length pre <= h) /\ k s' = Some x.
Proof.
  assert (Stop : forall s lo hi (k : jsstring -> option X) x,
    (if lo =? 0 then k s else None) = Some x ->
    exists pre s', s = pre ++ s' /\ forallb cls pre = true /\ lo <= length pre /\
      (forall h, hi = Some h -> length pre <= h) /\ k s' = Some x).
  { intros s lo hi k x H. destruct (Nat.eqb_spec lo 0) as [->|]; [|discriminate].
    exists [], s. repeat split; auto. intros; simpl; lia. }
  induction s as [|u s IH]; intros lo hi k x H; simpl in H.
  - now apply Stop.
  - destruct (cls u && match hi with Some 0 => false | _ => true end) eqn:E;
      [|now apply Stop].
    destruct (greedy cls (pred lo) (option_map pred hi) s k) as [y|] eqn:G;
      [|now apply Stop].
    injection H as ->. apply andb_true_iff in E as [Eu Eh].
    destruct (IH _ _ _ _ G) as (pre & s' & -> & Hall & Hlo & Hhi & Hk).
    exists (u :: pre), s'. repeat split; auto.
    + simpl. now rewrite Eu.
    + simpl. lia.
    + intros h ->. simpl in *. destruct h; [discriminate|].
      specialize (Hhi h eq_refl). lia.
Qed.

(** A pattern without a group hands the capture on unchanged. *)
Lemma run_groupFree X :
  forall r s cap (k : jsstring -> option jsstring -> option X) x,
  groupFree r = true -> run r s cap k = Some x -> exists s', k s' cap = Some x.
Proof.
  induction r as [|cls|r1 IH1 r2 IH2|r1 IH1 r2 IH2|r1 IH1|lo hi cls|r1 IH1];
    intros s cap k x GF H; simpl in *.
  - eauto.
  - destruct s as [|u s]; [discriminate|]. destruct (cls u); [eauto|discriminate].
  - apply andb_true_iff in GF as [G1 G2].
    destruct (IH1 _ _ _ _ G1 H) as (s' & H'). eauto.
  - apply andb_true_iff in GF as [G1 G2].
    destruct (run r1 s cap k) eqn:E1; [injection H as ->; eauto | eauto].
  - destruct (run r1 s cap k) eqn:E1; [injection H as ->; eauto | eauto].
  - destruct (greedy_consumes _ _ _ _ _ H) as (pre & s' & _ & _ & _ & _ & Hk).
    eauto.
  - discriminate.
Qed.

Lemma search_found r : forall s g,
  search r s = Some g ->
  exists t cap, run r t None (fun _ c => Some c) = Some cap /\
                g = match cap with Some g1 => g1 | None => [] end.
Proof.
  induction s as [|u s IH]; intros g H; simpl in H.
  - destruct (run r [] None (fun _ c => Some c)) as [cap|] eqn:E; [|discriminate].
    injection H as <-. eauto.
  - destruct (run r (u :: s) None (fun _ c => Some c)) as [cap|] eqn:E.
    + injection H as <-. eauto.
    + eauto.
Qed.

Lemma run_Seq X r1 r2 s cap (k : jsstring -> option jsstring -> option X) :
  run (Seq r1 r2) s cap k = run r1 s cap (fun s' cap' => run r2 s' cap' k).
Proof. reflexivity. Qed.

Lemma run_Group X r s cap (k : jsstring -> option jsstring -> option X) :
  run (Group r) s cap k =
  run r s cap (fun s' _ => k s' (Some (firstn (length s - length s') s))).
Proof. reflexivity. Qed.

Lemma run_Rep X lo hi cls s cap (k : jsstring -> option jsstring -> option X) :
  run (Rep lo hi cls) s cap k = greedy cls lo hi s (fun s' => k s' cap).
Proof. reflexivity. Qed.

(** Group 1 of the age pattern is one or two digits. *)
Lemma agePattern_group bio g :
  search agePattern bio = Some g ->
  1 <= length g <= 2 /\ forallb isDigit g = true.
Proof.
  intro H. destruct (search_found _ _ H) as (t & cap & Hrun & ->). clear H.
  unfold agePattern in Hrun.
  match type of Hrun with
  | run (Seq _ ?rest) _ _ _ = _ => remember rest as tail eqn:Et
  end.
  rewrite run_Seq, run_Group, run_Rep in Hrun.
  apply greedy_consumes in Hrun as (pre & s' & -> & Hall & Hlo & Hhi & Hk).
  apply run_groupFree in Hk as (s'' & Hk); [|subst tail; reflexivity].
  injection Hk as <-.
  rewrite length_app, Nat.add_sub, firstn_app, firstn_all, Nat.sub_diag.
  simpl. rewrite app_nil_r.
  specialize (Hhi 2 eq_refl). auto.
Qed.

Lemma parseInt_two_digits g :
  1 <= length g <= 2 -> forallb isDigit g = true -> (0 <= parseInt g <= 99)%Z.
Proof.
  intros Hlen Hdig.
  assert (Dg : forall u, isDigit u = true -> (48 <= Z.of_N u <= 57)%Z).
  { intros u Hu. unfold isDigit in Hu. apply andb_true_iff in Hu as [H1 H2].
    apply N.leb_le in H1, H2. lia. }
  destruct g as [|u [|v [|w g]]]; simpl in Hlen; try lia; simpl in Hdig.
  - rewrite andb_true_r in Hdig. unfold parseInt. simpl. rewrite Hdig. simpl.
    apply Dg in Hdig. lia.
  - rewrite andb_true_r in Hdig. apply andb_true_iff in Hdig as [Hu Hv].
    unfold parseInt. simpl. rewrite Hu, Hv. simpl.
    apply Dg in Hu, Hv. lia.
Qed.

(** ** Date of birth *)

Section DateOfBirthFacts.
Context {R : Runtime}.

Lemma extractYearFromBio_age bio g :
  search bornPattern bio = None -> search agePattern bio = Some g ->
  (0 <= parseInt g <= 99)%Z /\
  extractYearFromBio bio =
  if (10 <? parseInt g)%Z then Some (currentYear - parseInt g)%Z else None.
Proof.
  intros Hb Ha.
  destruct (agePattern_group _ Ha) as [Hlen Hdig].
  pose proof (parseInt_two_digits _ Hlen Hdig) as Hage.
  split; [exact Hage|].
  unfold extractYearFromBio. rewrite Hb, Ha. cbv zeta.
  assert ((parseInt g <? 100)%Z = true) as -> by (apply Z.ltb_lt; lia).
  now rewrite andb_true_r.
Qed.

Lemma matchDateOfBirth_year (dob bio : jsstring) d y :
  dob <> [] -> bio <> [] ->
  parseDate dob = Some d -> extractYearFromBio bio = Some y -> y <> 0%Z ->
  matchDateOfBirth (Some dob) (Some bio) =
  if (y =? getFullYear d)%Z then 1%Q
  else if (Z.abs (y - getFullYear d) =? 1)%Z then 0.7%Q else 0%Q.
Proof.
  intros Hd Hb Hp He Hy. unfold matchDateOfBirth.
  destruct dob as [|u dob]; [congruence|].
  destruct bio as [|v bio]; [congruence|].
  rewrite Hp, He.
  destruct (Z.eqb_spec y 0); [congruence|].
  destruct (Z.eqb_spec y (getFullYear d)); [reflexivity|].
  destruct (Z.leb_spec (Z.abs (y - getFullYear d)) 1);
    destruct (Z.eqb_spec (Z.abs (y - getFullYear d)) 1); try reflexivity; lia.
Qed.

End DateOfBirthFacts.

(** ** Location *)

Section LocationFacts.
Context {R : Runtime}.


End LocationFacts.

(** ** Email *)


Lemma for_of_none A X (body : A -> option X) xs dflt :
  Forall (fun y => body y = None) xs -> for_of xs body dflt = dflt.
Proof.
  induction 1 as [|y xs Hy _ IH]; simpl; [reflexivity|]. now rewrite Hy.
Qed.


Section EmailFacts.
Context {R : Runtime}.

(** Past its guard the matcher is the loop over the tiers. *)
Lemma matchEmailToUsername_loop emails (username : jsstring) :
  truthyOM (Some emails) = true -> username <> [] ->
  matchEmailToUsername (Some emails) (Some username) =
  for_of (asList emails) (emailTier username) 0%Q.
Proof.
  intros He Hu. unfold matchEmailToUsername. rewrite He. simpl negb. cbv iota.
  destruct username; [congruence|]. reflexivity.
Qed.


End EmailFacts.

(** ** Ranges

    Where the scores stay within the unit interval.  The two matchers that
    fall back on [similarity] do so as long as lower-casing does not
    lengthen the strings they hand to it. *)

Lemma for_of_all A X (P : X -> Prop) (body : A -> option X) xs dflt :
  (forall x v, body x = Some v -> P v) -> P dflt -> P (for_of xs body dflt).
Proof.
  intros Hb Hd. induction xs as [|x xs IH]; simpl; [exact Hd|].
  destruct (body x) as [v|] eqn:E; [now apply (Hb x) | exact IH].
Qed.

Lemma filter_length_le A (f : A -> bool) xs : length (filter f xs) <= length xs.
Proof.
  induction xs as [|x xs IH]; simpl; [lia|]. destruct (f x); simpl; lia.
Qed.

Section Ranges.
Context {R : Runtime}.
Open Scope Q_scope.

Lemma keyword_share_range (c : Q) A (f : A -> bool) (words : list A) :
  0 <= c <= 1 ->
  unit_interval
    (if (0 <? length (filter f words))%nat
     then c * ratio (length (filter f words)) (length words)
     else 0).
Proof.
  intro Hc. unfold unit_interval.
  destruct (Nat.ltb_spec 0 (length (filter f words))) as [Hpos|_]; [|lra].
  pose proof (filter_length_le f words) as Hle.
  destruct (@ratio_bounds (length (filter f words)) (length words)) as [H0 H1];
    [exact Hle | lia |].
  unfold ratio. nra.
Qed.

Lemma matchEmployerInBio_range employer bio :
  unit_interval (matchEmployerInBio employer bio).
Proof.
  unfold matchEmployerInBio.
  destruct employer as [[|u e]|]; try (unfold unit_interval; lra).
  destruct bio as [[|v b]|]; try (unfold unit_interval; lra).
  cbv zeta. destruct (includes _ _); [unfold unit_interval; lra|].
  apply keyword_share_range. lra.
Qed.

Lemma matchJobTitleInBio_range jobTitle bio :
  unit_interval (matchJobTitleInBio jobTitle bio).
Proof.
  unfold matchJobTitleInBio.
  destruct jobTitle as [[|u t]|]; try (unfold unit_interval; lra).
  destruct bio as [[|v b]|]; try (unfold unit_interval; lra).
  cbv zeta. destruct (includes _ _); [unfold unit_interval; lra|].
  match goal with
  | |- unit_interval (if ?c then ?x else ?y) =>
      destruct c eqn:E; [generalize (@keyword_share_range 0.6 _
        (fun w => includes (toLowerCase (v :: b)) w)
        (filter (fun w => (3 <? length w)%nat) (split_ws (toLowerCase (u :: t)))));
        rewrite E; intro K; apply K; lra|]
  end.
  match goal with
  | |- unit_interval (if gt ?s 0.5 then _ else _) =>
      pose proof (similarity_le_1 (toLowerCase (u :: t)) (toLowerCase (v :: b)));
      destruct (gt s 0.5) eqn:G; [apply gt_spec in G|]; unfold unit_interval; lra
  end.
Qed.

Lemma matchEmailToUsername_range emails username :
  unit_interval (matchEmailToUsername emails username).
Proof.
  unfold matchEmailToUsername.
  destruct (truthyOM emails); simpl; [|unfold unit_interval; lra].
  destruct emails as [emails|]; [|unfold unit_interval; lra].
  destruct username as [[|u name]|]; try (unfold unit_interval; lra).
  apply for_of_all; [|unfold unit_interval; lra].
  intros email v. cbv zeta.
  destruct (eqb _ _); [intro E; injection E as <-; unfold unit_interval; lra|].
  destruct (eqb _ _); [intro E; injection E as <-; unfold unit_interval; lra|].
  destruct (_ || _); [intro E; injection E as <-; unfold unit_interval; lra|].
  discriminate.
Qed.

Lemma matchPhoneInBio_range phones bio :
  unit_interval (matchPhoneInBio phones bio).
Proof.
  unfold matchPhoneInBio.
  destruct (truthyOM phones); simpl; [|unfold unit_interval; lra].
  destruct phones as [phones|]; [|unfold unit_interval; lra].
  destruct bio as [[|u b]|]; try (unfold unit_interval; lra).
  apply for_of_all; [|unfold unit_interval; lra].
  intros phone v. cbv zeta.
  destruct (_ && _); [intro E; injection E as <-; unfold unit_interval; lra|].
  destruct (_ && _); [intro E; injection E as <-; unfold unit_interval; lra|].
  discriminate.
Qed.

Lemma matchDateOfBirth_range dob bio :
  unit_interval (matchDateOfBirth dob bio).
Proof.
  unfold matchDateOfBirth.
  destruct dob as [[|u d]|]; try (unfold unit_interval; lra).
  destruct bio as [[|v b]|]; try (unfold unit_interval; lra).
  destruct (parseDate _); [|unfold unit_interval; lra].
  destruct (extractYearFromBio _); [|unfold unit_interval; lra].
  destruct (_ =? 0)%Z; [unfold unit_interval; lra|].
  destruct (_ =? _)%Z; [unfold unit_interval; lra|].
  destruct (_ <=? _)%Z; unfold unit_interval; lra.
Qed.

Lemma round2_range x : unit_interval x -> unit_interval (round2 x).
Proof.
  intros [H0 H1]. unfold unit_interval, round2, Math_round.
  assert (L : (0 <= Qfloor (x * 100 + (1 # 2)))%Z).
  { apply Z.le_trans with (Qfloor 0); [reflexivity|].
    apply Qfloor_resp_le. lra. }
  assert (U : (Qfloor (x * 100 + (1 # 2)) <= 100)%Z).
  { apply Z.le_trans with (Qfloor (100 + (1 # 2))); [|reflexivity].
    apply Qfloor_resp_le. lra. }
  set (z := Qfloor (x * 100 + (1 # 2))) in *.
  assert (0 <= inject_Z z) by (rewrite <- (Zle_Qle 0); exact L).
  assert (inject_Z z <= inject_Z 100) by (rewrite <- Zle_Qle; exact U).
  change (inject_Z 100) with 100 in *.
  split.
  - apply Qle_shift_div_l; lra.
  - apply Qle_shift_div_r; lra.
Qed.

Lemma weighted_mean_range fs :
  Forall (fun f => 0 < fieldWeight f /\ unit_interval (matcherScore f)) fs ->
  0 <= numerator fs <= denominator fs.
Proof.
  induction 1 as [|f fs [Hw [H0 H1]] _ IH]; simpl; [lra|]. nra.
Qed.

(** The overall score is within [0, 1] whenever the matchers that were
    consulted are. *)
Lemma overallScore_range person profile :
  Forall (fun f => unit_interval (matcherScore f))
    (applicable (fieldPairs person profile)) ->
  unit_interval (overallScore person profile).
Proof.
  intro H. unfold overallScore.
  pose proof (Forall_applicable (fieldPairs_weights person profile)) as Hpos.
  destruct (applicable (fieldPairs person profile)) as [|f fs] eqn:E;
    [unfold unit_interval; lra|].
  assert (HF : Forall (fun f => 0 < fieldWeight f /\ unit_interval (matcherScore f))
                 (f :: fs)).
  { apply Forall_forall. intros g Hg. rewrite Forall_forall in H, Hpos. auto. }
  pose proof (weighted_mean_range HF) as [N0 ND].
  assert (Dpos : 0 < denominator (f :: fs))
    by (apply denominator_positive; [exact Hpos | discriminate]).
  apply round2_range. split.
  - apply Qle_shift_div_l; lra.
  - apply Qle_shift_div_r; lra.
Qed.

(** From here on: lower-casing never lengthens a string.  (The host's does,
    at U+0130, where the range is lost.) *)
Hypothesis lower_not_longer : forall s, (length (toLowerCase s) <= length s)%nat.

Lemma similarity_range a b : unit_interval (similarity a b).
Proof.
  split; [apply similarity_ge_0; apply lower_not_longer | apply similarity_le_1].
Qed.

Lemma matchName_range personName profileName :
  unit_interval (matchName personName profileName).
Proof.
  unfold matchName.
  destruct (option_map trim personName) as [[|u n1]|];
    try (unfold unit_interval; lra).
  destruct (option_map trim profileName) as [[|v n2]|];
    try (unfold unit_interval; lra).
  cbv zeta.
  repeat match goal with
  | |- unit_interval (if gt ?s _ then _ else _) => destruct (gt s _)
  | |- unit_interval (if ?c then _ else _) => destruct c
  | |- unit_interval (similarity ?x ?y) => apply similarity_range
  | |- unit_interval (_ + similarity ?x ?y * _) =>
      destruct (similarity_range x y); unfold unit_interval; lra
  | |- unit_interval _ => unfold unit_interval; lra
  end.
Qed.

Lemma matchLocation_range personLoc profileLoc :
  unit_interval (matchLocation personLoc profileLoc).
Proof.
  unfold matchLocation.
  destruct personLoc as [[|u p]|]; try (unfold unit_interval; lra).
  destruct profileLoc as [[|v q]|]; try (unfold unit_interval; lra).
  cbv zeta.
  repeat match goal with
  | |- unit_interval (if ?c then _ else _) => destruct c
  | |- unit_interval (similarity ?x ?y) => apply similarity_range
  | |- unit_interval _ => unfold unit_interval; lra
  end.
Qed.

Lemma calculateMatchScore_range person profile :
  unit_interval (MatchResult.score (calculateMatchScore person profile)).
Proof.
  unfold unit_interval. rewrite calculateMatchScore_overall.
  apply overallScore_range. apply Forall_applicable.
  unfold fieldPairs. repeat apply Forall_cons; try apply Forall_nil;
    cbn [matcherScore].
  - apply matchName_range.
  - apply matchLocation_range.
  - apply matchEmployerInBio_range.
  - apply matchEmailToUsername_range.
  - apply matchJobTitleInBio_range.
  - apply matchPhoneInBio_range.
  - apply matchDateOfBirth_range.
Qed.

End Ranges.

(** ** Name: the initial-match branch *)

Section NameFacts.
Context {R : Runtime}.

(** When the exact and the nickname paths do not apply and the profile's
    first token is a single unit that starts the person's first token. *)
Lemma matchName_initial_path (personName profileName : jsstring) :
  let p1 := filterBoolean (split_ws (toLowerCase (trim personName))) in
  let p2 := filterBoolean (split_ws (toLowerCase (trim profileName))) in
  trim personName <> [] -> trim profileName <> [] ->
  p1 <> [] -> p2 <> [] ->
  eqb (join_space p1) (join_space p2) = false ->
  areNicknameVariants (hd [] p1) (hd [] p2) = false ->
  length (hd [] p2) = 1 -> startsWith (hd [] p1) (hd [] p2) = true ->
  matchName (Some personName) (Some profileName) =
  if (1 <? length p1) && (1 <? length p2)
  then (0.5 + similarity (last p1 []) (last p2 []) * 0.3)%Q
  else 0.4%Q.
Proof.
  intros p1 p2 H1 H2 N1 N2 Hne Hnick Hlen Hst. unfold matchName. simpl option_map.
  destruct (trim personName) as [|u n1] eqn:E1; [congruence|].
  destruct (trim profileName) as [|v n2] eqn:E2; [congruence|].
  fold p1 p2. cbv zeta.
  destruct p1 as [|t1 r1]; [congruence|]. destruct p2 as [|t2 r2]; [congruence|].
  cbn [length Nat.eqb orb]. rewrite Hne.
  cbn [Nat.ltb Nat.leb andb]. rewrite Hnick.
  rewrite Hlen, Hst. reflexivity.
Qed.

End NameFacts.

(** ** The repository's own expectations

    The values the test suite expects, on the host [node]. *)

Section Conformance.
Open Scope Q_scope.

Import Sample.

Example test_name_exact :
  matchName (R := node) (str "Jane Doe") (str "Jane Doe") == 1
  /\ matchName (R := node) (str "JANE DOE") (str "jane doe") == 1
  /\ matchName (R := node) (str "Jane Doe") (str "Jane  Doe") == 1
  /\ matchName (R := node) (str "Madonna") (str "Madonna") == 1.
Proof. repeat split; vm_compute; reflexivity. Qed.

Example test_name_nickname :
  matchName (R := node) (str "William Smith") (str "Bill Smith") == 0.95
  /\ matchName (R := node) (str "Robert Johnson") (str "Bob Johnson") == 0.95
  /\ matchName (R := node) (str "Jane Doe") (str "Jane Deo") == 0.7.
Proof. repeat split; vm_compute; reflexivity. Qed.

Example test_name_absent :
  matchName (R := node) None (str "Jane") == 0
  /\ matchName (R := node) (str "") (str "Jane") == 0
  /\ matchName (R := node) (str "   ") (str "   ") == 0
  /\ matchName (R := node) (str "Jane Doe") (str "Bob Smith") < 0.3.
Proof. repeat split; vm_compute; reflexivity. Qed.

Example test_location :
  matchLocation (R := node) (str "NYC") (str "NYC") == 1
  /\ matchLocation (R := node) (str "San Francisco") (str "SF") == 0.9
  /\ matchLocation (R := node) (str "Los Angeles") (str "LA") == 0.9
  /\ matchLocation (R := node) (str "New York") (str "New York, USA") == 0.9
  /\ matchLocation (R := node) (str "") (str "") == 0
  /\ matchLocation (R := node) (str "Tokyo, Japan") (str "London, UK") < 0.3.
Proof. repeat split; vm_compute; reflexivity. Qed.

Example test_employer :
  matchEmployerInBio (R := node) (str "Acme Corp") (str "Engineer at Acme Corp") == 1
  /\ matchEmployerInBio (R := node) (str "Acme Corporation") (str "Working at Acme") == 0.25
  /\ matchEmployerInBio (R := node) (str "Google") (str "Engineer at Microsoft") == 0
  /\ matchEmployerInBio (R := node) (str "GOOGLE") (str "Works at google") == 1.
Proof. repeat split; vm_compute; reflexivity. Qed.

Example test_job_title :
  matchJobTitleInBio (R := node) (str "Software Engineer") (str "Software Engineer at Acme") == 1
  /\ matchJobTitleInBio (R := node) (str "Software Engineer") (str "Senior Engineer") == 0.3
  /\ matchJobTitleInBio (R := node) (str "CEO") (str "Junior Developer") == 0
  /\ matchJobTitleInBio (R := node) (str "Software Engineer") (str "SWE at Google") == 0.
Proof. repeat split; vm_compute; reflexivity. Qed.

Example test_email :
  matchEmailToUsername (R := node) (Some (One (lit "janedoe@example.com"))) (str "janedoe") == 1
  /\ matchEmailToUsername (R := node) (Some (One (lit "john.doe@email.com"))) (str "johndoe") == 0.9
  /\ matchEmailToUsername (R := node)
       (Some (Many [lit "work@co.com"; lit "janedoe@gmail.com"])) (str "janedoe") == 1
  /\ matchEmailToUsername (R := node)
       (Some (Many [lit "alice@email.com"; lit "bob@email.com"])) (str "charlie") == 0
  /\ matchEmailToUsername (R := node) (Some (Many [])) (str "john") == 0
  /\ matchEmailToUsername (R := node) (Some (One (lit "notanemail"))) (str "notanemail") == 1.
Proof. repeat split; vm_compute; reflexivity. Qed.

Example test_phone :
  matchPhoneInBio (Some (One (lit "(555) 123-4567"))) (str "Call: 5551234567") == 1
  /\ matchPhoneInBio (Some (One (lit "+1-555-123-4567"))) (str "Contact: 1234567") == 0.8
  /\ matchPhoneInBio (Some (One (lit "555-123-4567"))) (str "No phone here") == 0
  /\ matchPhoneInBio (Some (One (lit "123"))) (str "Call 123") == 0
  /\ matchPhoneInBio (Some (Many [lit "555-111-1111"; lit "555-222-2222"]))
       (str "Call 5552222222") == 1.
Proof. repeat split; vm_compute; reflexivity. Qed.

Example test_date_of_birth :
  matchDateOfBirth (R := node) (str "1990-05-15") (str "Born 1990, love coding") == 1
  /\ matchDateOfBirth (R := node) (str "1990-05-15") (str "36 years old") == 1
  /\ matchDateOfBirth (R := node) (str "2001-01-01") (str "25yo developer") == 1
  /\ matchDateOfBirth (R := node) (str "1990-05-15") (str "Class of 1990") == 0
  /\ matchDateOfBirth (R := node) (str "1990-12-31") (str "Born 1995") == 0
  /\ matchDateOfBirth (R := node) (str "not-a-date") (str "Born 1990") == 0.
Proof. repeat split; vm_compute; reflexivity. Qed.

(** [if (bioYear)] takes the year 0 for no year. *)
Example year_zero_is_falsy :
  extractYearFromBio (R := node) (lit "born 0000") = Some 0%Z
  /\ matchDateOfBirth (R := node) (str "0000-06-15") (str "born 0000") == 0.
Proof. split; vm_compute; reflexivity. Qed.

(** An operand of white space only is not missing for [matchLocation]. *)
Example blank_location_is_not_missing :
  matchLocation (R := node) (str "   ") (str "NYC") == 0.85.
Proof. vm_compute. reflexivity. Qed.

Example test_ties_keep_input_order :
  map (fun r => Profile.username (MatchResult.profile r))
    (matchProfiles (R := node) (Sample.named (lit "Jane"))
       [Sample.shown "jane1" "Jane"; Sample.shown "nobody" "Zed";
        Sample.shown "jane2" "Jane"])
  = [lit "jane1"; lit "jane2"; lit "nobody"].
Proof. vm_compute. reflexivity. Qed.

End Conformance.

(** * The stated properties *)

Section Stated.
Open Scope Q_scope.



(** C2.  The claim is that every matcher and the overall score stay within
    [0, 1].  The code leaves the interval: [similarity] divides the distance
    of the lower-cased strings by the length of the strings before
    lower-casing, and U+0130 lower-cases to two units.  For the name made of
    two U+0130 against ["ab"] the distance is 4 and the length 2, so
    [matchName] answers -1, and so does the overall score of a person with
    only that name. *)
Theorem matchName_below_zero :
  matchName (R := node) (Some Sample.dottedCapitals) (Some (lit "ab")) == -1
  /\ MatchResult.score
       (calculateMatchScore (R := node) (Sample.named Sample.dottedCapitals)
          (Sample.shown "ab" "ab")) == -1.
Proof. split; vm_compute; reflexivity. Qed.

(** C3.  Every field matcher answers exactly 0 when an operand is missing
    ([undefined]) or empty: the empty string for all seven, a string of
    white space only for [matchName], the matcher that trims its operands
    before it tests them, and the empty sequence for emails and phones; a
    date of birth the host cannot parse gives 0 as well.  The matchers are
    total functions, so none of these cases fails. *)
Theorem matchers_zero_on_missing (R : Runtime) :
  (forall p q, blank p || blank q = true -> matchName p q = 0)
  /\ (forall p q, missing p || missing q = true -> matchLocation p q = 0)
  /\ (forall p q, missing p || missing q = true -> matchEmployerInBio p q = 0)
  /\ (forall p q, missing p || missing q = true -> matchJobTitleInBio p q = 0)
  /\ (forall e u, missingOM e || missing u = true -> matchEmailToUsername e u = 0)
  /\ (forall u, matchEmailToUsername (Some (Many [])) u = 0)
  /\ (forall p b, missingOM p || missing b = true -> matchPhoneInBio p b = 0)
  /\ (forall b, matchPhoneInBio (Some (Many [])) b = 0)
  /\ (forall d b, missing d || missing b = true -> matchDateOfBirth d b = 0)
  /\ (forall d b, parseDate d = None -> matchDateOfBirth (Some d) b = 0).
Proof.
  repeat split.
  - apply matchName_blank.
  - apply matchLocation_missing.
  - apply matchEmployerInBio_missing.
  - apply matchJobTitleInBio_missing.
  - apply matchEmailToUsername_missing.
  - apply matchEmailToUsername_empty.
  - apply matchPhoneInBio_missing.
  - apply matchPhoneInBio_empty.
  - apply matchDateOfBirth_missing.
  - apply matchDateOfBirth_malformed.
Qed.

Lemma matchers_zero_on_missing_witness :
  matchName (R := node) (Some (lit "   ")) (Some (lit "Jane")) = 0
  /\ matchDateOfBirth (R := node) (Some (lit "not-a-date")) (Some (lit "Born 1990")) = 0.
Proof.
  split.
  - apply (proj1 (matchers_zero_on_missing node)). reflexivity.
  - apply (matchers_zero_on_missing node). reflexivity.
Defined.

(** C4.  [matchProfiles] returns one result per input profile (the scored
    profiles, rearranged), in descending order of overall score; results
    with equal scores keep the order of the input; no profiles, no
    results. *)
Theorem matchProfiles_ranked (R : Runtime) person profiles :
  let scored := map (fun p => calculateMatchScore person p) profiles in
  let results := matchProfiles person profiles in
  Permutation results scored
  /\ length results = length profiles
  /\ StronglySorted (fun x y => MatchResult.score y <= MatchResult.score x) results
  /\ (forall q, withKey MatchResult.score q results = withKey MatchResult.score q scored)
  /\ matchProfiles person [] = [].
Proof.
  intros scored results.
  assert (P : Permutation results scored) by apply Array_sort_perm.
  repeat split.
  - exact P.
  - rewrite (Permutation_length P). apply length_map.
  - apply Sorted_StronglySorted; [apply descending_trans|].
    apply Array_sort_sorted.
  - intro q. apply Array_sort_stable.
Qed.

(** C5, as stated, fails: the distance is not taken over code points.  For
    U+1F600 [a] against U+1D4B3 [a] the code answers 1/3 (distance 2 over
    3 units), while the distance over code points is 1, which gives 1/2
    with lengths in code points and 2/3 with lengths in units. *)
Lemma similarity_counts_code_units :
  similarity (R := node) Sample.grinning_a Sample.scriptX_a == 1 # 3
  /\ ~ similarity (R := node) Sample.grinning_a Sample.scriptX_a
       == similarityOverCodePoints (R := node) lengthInCodePoints
            Sample.grinning_a Sample.scriptX_a
  /\ ~ similarity (R := node) Sample.grinning_a Sample.scriptX_a
       == similarityOverCodePoints (R := node) (@length N)
            Sample.grinning_a Sample.scriptX_a.
Proof.
  repeat split; try (vm_compute; reflexivity);
    intro H; vm_compute in H; discriminate.
Qed.

(** C5, amended.  [similarity a b] is 0 when either trimmed input is empty
    and otherwise 1 - levenshtein(lower(a), lower(b)) / max(len(a), len(b)),
    where [levenshtein] is the unit-cost insert/delete/substitute edit
    distance over the UTF-16 code units of the lower-cased trimmed strings
    and [len] is the length in code units of the trimmed string;
    [similarity s s] is 1 for every [s] with a non-empty trim. *)
Theorem similarity_over_code_units (R : Runtime) a b :
  is_edit_distance (toLowerCase (trim a)) (toLowerCase (trim b))
    (levenshtein (toLowerCase (trim a)) (toLowerCase (trim b)))
  /\ similarity a b =
     (if isEmpty (trim a) || isEmpty (trim b) then 0 else
      1 - inject_Z (Z.of_nat (levenshtein (toLowerCase (trim a)) (toLowerCase (trim b))))
          / inject_Z (Z.of_nat (Nat.max (length (trim a)) (length (trim b)))))
  /\ similarity a a == (if isEmpty (trim a) then 0 else 1).
Proof.
  split; [apply levenshtein_is_edit_distance|].
  split; [apply similarity_formula | apply similarity_self].
Qed.

(** C6.  The claim is that ["J. Doe"] against ["Jane Doe"] takes the
    initial-match path and scores 0.5 + 1 * 0.3 = 0.8.  In the code the
    path requires the profile's first token to be one unit long; ["j."] is
    two, so the call falls through to the similarity of the full names,
    1 - 3/8. *)
Theorem matchName_initial_with_period :
  matchName (R := node) (Some (lit "Jane Doe")) (Some (lit "J. Doe")) == 5 # 8
  /\ matchName (R := node) (Some (lit "Jane Doe")) (Some (lit "J Doe")) == 0.8.
Proof. split; vm_compute; reflexivity. Qed.

(** C7, as stated, fails: an age of 99 is not strictly between 10 and 99,
    yet ["99 years old"] yields a year. *)
Lemma age_99_yields_year :
  ~ (forall bio g,
       search bornPattern bio = None -> search agePattern bio = Some g ->
       extractYearFromBio (R := node) bio <> None ->
       (10 < parseInt g < 99)%Z).
Proof.
  intro H.
  assert (C : (10 < parseInt (lit "99") < 99)%Z).
  { apply (H (lit "99 years old")); [reflexivity | reflexivity |].
    vm_compute. discriminate. }
  vm_compute in C. destruct C as [_ C]. discriminate.
Qed.

(** C7, amended.  When the born pattern does not match and the age pattern
    does, its group is a number NN from 0 to 99 (one or two digits), and a
    candidate year, [currentYear - NN], is produced exactly when NN is
    greater than 10, 99 included.  When the year extracted from the bio is
    not 0, the result is 1 if it is the person's birth year, 0.7 if it is
    exactly one year off and 0 for any larger difference. *)
Theorem matchDateOfBirth_extracted_year (R : Runtime) :
  (forall bio g,
     search bornPattern bio = None -> search agePattern bio = Some g ->
     (0 <= parseInt g <= 99)%Z /\
     extractYearFromBio bio =
     if (10 <? parseInt g)%Z then Some (currentYear - parseInt g)%Z else None)
  /\ (forall (dob bio : jsstring) d y,
        dob <> [] -> bio <> [] ->
        parseDate dob = Some d -> extractYearFromBio bio = Some y -> y <> 0%Z ->
        matchDateOfBirth (Some dob) (Some bio) =
        if (y =? getFullYear d)%Z then 1
        else if (Z.abs (y - getFullYear d) =? 1)%Z then 0.7 else 0).
Proof.
  split.
  - apply extractYearFromBio_age.
  - apply matchDateOfBirth_year.
Qed.

Lemma matchDateOfBirth_extracted_year_witness :
  extractYearFromBio (R := node) (lit "99 years old") = Some 1927%Z
  /\ matchDateOfBirth (R := node) (Some (lit "1990-05-15")) (Some (lit "Born 1991")) = 0.7.
Proof.
  split.
  - apply (proj1 (matchDateOfBirth_extracted_year node) (lit "99 years old")
             (lit "99")); reflexivity.
  - apply (proj2 (matchDateOfBirth_extracted_year node) (lit "1990-05-15")
             (lit "Born 1991") {| getFullYear := 1990 |} 1991%Z);
      try reflexivity; discriminate.
Defined.








End Stated.

(** * More properties of the engine *)

(** ** Edit distance as a metric *)

Lemma edits_zero a b n : edits a b n -> n = 0 -> a = b.
Proof.
  induction 1; intro E; try discriminate; [reflexivity|].
  f_equal. auto.
Qed.

Lemma distance_eq_0 a b : distance a b = 0 <-> a = b.
Proof.
  split.
  - intro H. apply (edits_zero (distance_sound a b) H).
  - intros ->. apply distance_refl.
Qed.

Lemma edits_lengths a b n :
  edits a b n -> length a <= length b + n /\ length b <= length a + n.
Proof. induction 1; simpl; lia. Qed.

(** Scripts compose. *)
Lemma edits_compose b c m :
  edits b c m -> forall a n, edits a b n -> exists k, k <= n + m /\ edits a c k.
Proof.
  induction 1 as [|y b c m H2 IH|y z b c m H2 IH|y b c m H2 IH|z b c m H2 IH];
    intros a n H1.
  - exists n. split; [lia | assumption].
  - remember (y :: b) as b0 eqn:E. revert y b c m H2 IH E.
    induction H1 as [|x a b' n H1 IH1|x w a b' n H1 IH1|x a b' n H1 IH1|w a b' n H1 IH1];
      intros y b c m H2 IH E.
    + discriminate.
    + injection E as -> ->. destruct (IH _ _ H1) as (k & Hk & Hed).
      exists k. split; [lia | auto with edits].
    + injection E as -> ->. destruct (IH _ _ H1) as (k & Hk & Hed).
      exists (S k). split; [lia | auto with edits].
    + destruct (IH1 _ _ _ _ H2 IH E) as (k & Hk & Hed).
      exists (S k). split; [lia | auto with edits].
    + injection E as -> ->. destruct (IH _ _ H1) as (k & Hk & Hed).
      exists (S k). split; [lia | auto with edits].
  - remember (y :: b) as b0 eqn:E. revert y b c m H2 IH E.
    induction H1 as [|x a b' n H1 IH1|x w a b' n H1 IH1|x a b' n H1 IH1|w a b' n H1 IH1];
      intros y b c m H2 IH E.
    + discriminate.
    + injection E as -> ->. destruct (IH _ _ H1) as (k & Hk & Hed).
      exists (S k). split; [lia | auto with edits].
    + injection E as -> ->. destruct (IH _ _ H1) as (k & Hk & Hed).
      exists (S k). split; [lia | auto with edits].
    + destruct (IH1 _ _ _ _ H2 IH E) as (k & Hk & Hed).
      exists (S k). split; [lia | auto with edits].
    + injection E as -> ->. destruct (IH _ _ H1) as (k & Hk & Hed).
      exists (S k). split; [lia | auto with edits].
  - remember (y :: b) as b0 eqn:E. revert y b c m H2 IH E.
    induction H1 as [|x a b' n H1 IH1|x w a b' n H1 IH1|x a b' n H1 IH1|w a b' n H1 IH1];
      intros y b c m H2 IH E.
    + discriminate.
    + injection E as -> ->. destruct (IH _ _ H1) as (k & Hk & Hed).
      exists (S k). split; [lia | auto with edits].
    + injection E as -> ->. destruct (IH _ _ H1) as (k & Hk & Hed).
      exists (S k). split; [lia | auto with edits].
    + destruct (IH1 _ _ _ _ H2 IH E) as (k & Hk & Hed).
      exists (S k). split; [lia | auto with edits].
    + injection E as -> ->. destruct (IH _ _ H1) as (k & Hk & Hed).
      exists k. split; [lia | assumption].
  - destruct (IH _ _ H1) as (k & Hk & Hed).
    exists (S k). split; [lia | auto with edits].
Qed.

(** ** Trimming *)

Lemma takeWhile_dropWhile p s : takeWhile p s ++ dropWhile p s = s.
Proof.
  induction s as [|u s IH]; [reflexivity|]. simpl.
  destruct (p u); simpl; [now rewrite IH | reflexivity].
Qed.

Lemma takeWhile_all p s : forallb p (takeWhile p s) = true.
Proof.
  induction s as [|u s IH]; [reflexivity|]. simpl.
  destruct (p u) eqn:E; simpl; [now rewrite E | reflexivity].
Qed.

Lemma dropWhile_startsClean s : startsClean (dropWhile isSpace s) = true.
Proof.
  induction s as [|u s IH]; [reflexivity|]. simpl.
  destruct (isSpace u) eqn:E; [exact IH | simpl; now rewrite E].
Qed.

Lemma dropWhile_clean s : startsClean s = true -> dropWhile isSpace s = s.
Proof.
  destruct s as [|u s]; [reflexivity|]. simpl. intro H.
  apply negb_true_iff in H. now rewrite H.
Qed.

(** [trimEnd] cuts a run of white space off the end. *)
Lemma trimEnd_split s :
  exists post, s = trimEnd s ++ post /\ forallb isSpace post = true.
Proof.
  unfold trimEnd. exists (rev (takeWhile isSpace (rev s))). split.
  - rewrite <- rev_app_distr, takeWhile_dropWhile. now rewrite rev_involutive.
  - rewrite forallb_forall. intros u Hu. apply in_rev in Hu.
    pose proof (takeWhile_all isSpace (rev s)) as H.
    rewrite forallb_forall in H. now apply H.
Qed.

Lemma trimStart_split s :
  exists pre, s = pre ++ trimStart s /\ forallb isSpace pre = true.
Proof.
  exists (takeWhile isSpace s). split.
  - symmetry. apply takeWhile_dropWhile.
  - apply takeWhile_all.
Qed.

Lemma trimEnd_endsClean s : endsClean (trimEnd s) = true.
Proof.
  unfold endsClean, trimEnd. rewrite rev_involutive. apply dropWhile_startsClean.
Qed.

Lemma trimEnd_startsClean s : startsClean s = true -> startsClean (trimEnd s) = true.
Proof.
  intro H. destruct (trimEnd_split s) as (post & E & Hpost).
  destruct (trimEnd s) as [|u t] eqn:Et; [reflexivity|].
  rewrite E in H. exact H.
Qed.

Lemma trimEnd_clean s : endsClean s = true -> trimEnd s = s.
Proof.
  unfold endsClean, trimEnd. intro H. rewrite (dropWhile_clean _ H).
  apply rev_involutive.
Qed.

Lemma trim_clean_edges s : startsClean (trim s) = true /\ endsClean (trim s) = true.
Proof.
  unfold trim. split.
  - apply trimEnd_startsClean, dropWhile_startsClean.
  - apply trimEnd_endsClean.
Qed.

Lemma trim_clean s : startsClean s = true -> endsClean s = true -> trim s = s.
Proof.
  intros H1 H2. unfold trim, trimStart. rewrite (dropWhile_clean _ H1).
  now apply trimEnd_clean.
Qed.

Lemma trim_idempotent s : trim (trim s) = trim s.
Proof. destruct (trim_clean_edges s). now apply trim_clean. Qed.

(** [trim] keeps a piece from the middle. *)
Lemma trim_split s :
  exists pre post, s = pre ++ trim s ++ post
    /\ forallb isSpace pre = true /\ forallb isSpace post = true.
Proof.
  destruct (trimStart_split s) as (pre & E1 & H1).
  destruct (trimEnd_split (trimStart s)) as (post & E2 & H2).
  exists pre, post. unfold trim. rewrite <- E2. auto.
Qed.

(** ** Similarity, again *)

Section SimilarityMore.
Context {R : Runtime}.

Lemma similarity_sym a b : similarity a b = similarity b a.
Proof.
  rewrite !similarity_formula.
  rewrite (orb_comm (isEmpty (trim a))), (Nat.max_comm (length (trim a))).
  rewrite !levenshtein_distance.
  now rewrite (distance_sym (toLowerCase (trim a))).
Qed.

Lemma similarity_one a b :
  trim a <> [] -> trim b <> [] ->
  ((similarity a b == 1)%Q <-> toLowerCase (trim a) = toLowerCase (trim b)).
Proof.
  intros Ha Hb. rewrite similarity_formula.
  destruct (trim a) as [|u ta] eqn:Ea; [congruence|].
  destruct (trim b) as [|v tb] eqn:Eb; [congruence|].
  cbn [isEmpty orb].
  set (n := levenshtein _ _). set (d := Nat.max _ _).
  assert (Hd : (0 < inject_Z (Z.of_nat d))%Q).
  { rewrite <- (Zlt_Qlt 0). subst d. cbn [length]. lia. }
  assert (Hn0 : (0 <= inject_Z (Z.of_nat n))%Q).
  { rewrite <- (Zle_Qle 0). lia. }
  assert (Hdne : ~ (inject_Z (Z.of_nat d) == 0)%Q) by (intro X; lra).
  assert (Hzero : n = 0 <-> toLowerCase (u :: ta) = toLowerCase (v :: tb)).
  { subst n. rewrite levenshtein_distance. apply distance_eq_0. }
  rewrite <- Hzero. split.
  - intro H.
    assert (Hq : (inject_Z (Z.of_nat n) / inject_Z (Z.of_nat d) == 0)%Q) by lra.
    assert (Hz : (inject_Z (Z.of_nat n) == 0)%Q).
    { rewrite <- (@Qmult_div_r (inject_Z (Z.of_nat n)) _ Hdne). rewrite Hq. ring. }
    unfold Qeq in Hz. simpl in Hz. lia.
  - intros ->. unfold Qdiv. simpl inject_Z at 1. ring.
Qed.
End SimilarityMore.

(** ** Locations and nicknames *)

Lemma singleSpaced_cons u s :
  singleSpaced (u :: s) = negb (isSpace u && negb (startsClean s)) && singleSpaced s.
Proof.
  destruct s as [|v s]; simpl; [now rewrite andb_false_r|].
  now rewrite negb_involutive.
Qed.

Lemma singleSpaced_app a b :
  singleSpaced (a ++ b) = true -> singleSpaced a = true /\ singleSpaced b = true.
Proof.
  induction a as [|u a IH]; intro H; [auto|].
  rewrite <- app_comm_cons in H. rewrite singleSpaced_cons in H |- *.
  apply andb_true_iff in H as [H1 H2]. destruct (IH H2) as [Ha Hb].
  split; [|exact Hb]. rewrite Ha, andb_true_r.
  destruct a as [|v a]; [simpl; now rewrite andb_false_r|exact H1].
Qed.

Lemma collapse_ws_from_shape : forall s inRun,
  (forallb (fun u => negb (isDotOrComma u)) s = true ->
   forallb plainUnit (collapse_ws_from inRun s) = true)
  /\ singleSpaced (collapse_ws_from inRun s) = true
  /\ (inRun = true -> startsClean (collapse_ws_from inRun s) = true).
Proof.
  induction s as [|u s IH]; intro inRun; [simpl; auto|].
  destruct (IH true) as (P1 & S1 & C1). destruct (IH false) as (P0 & S0 & _).
  simpl. destruct (isSpace u) eqn:Eu.
  - destruct inRun.
    + repeat split; auto. intro H. apply andb_true_iff in H as [_ H]. auto.
    + repeat split.
      * intro H. apply andb_true_iff in H as [_ H]. simpl. now rewrite P1.
      * rewrite singleSpaced_cons, S1, C1 by reflexivity.
        now rewrite andb_false_r.
      * discriminate.
  - repeat split.
    + intro H. apply andb_true_iff in H as [Hu H]. simpl.
      unfold plainUnit at 1. rewrite Hu, Eu. simpl. auto.
    + rewrite singleSpaced_cons, Eu, S0. reflexivity.
    + intros _. simpl. now rewrite Eu.
Qed.

Lemma blankAll_no_dots s :
  forallb (fun u => negb (isDotOrComma u)) (blankAll isDotOrComma s) = true.
Proof.
  unfold blankAll. rewrite forallb_forall. intros u Hu.
  apply in_map_iff in Hu as (v & <- & _).
  destruct (isDotOrComma v) eqn:E; [reflexivity | now rewrite E].
Qed.

Lemma forallb_trim p s : forallb p s = true -> forallb p (trim s) = true.
Proof.
  intro H. destruct (trim_split s) as (pre & post & E & _).
  rewrite E, !forallb_app in H.
  apply andb_true_iff in H as [_ H]. now apply andb_true_iff in H as [H _].
Qed.

Lemma singleSpaced_trim s : singleSpaced s = true -> singleSpaced (trim s) = true.
Proof.
  intro H. destruct (trim_split s) as (pre & post & E & _).
  rewrite E in H. apply singleSpaced_app in H as [_ H].
  now apply singleSpaced_app in H as [H _].
Qed.

Lemma blankAll_plain s :
  forallb plainUnit s = true -> blankAll isDotOrComma s = s.
Proof.
  unfold blankAll. induction s as [|u s IH]; [reflexivity|]. simpl. intro H.
  apply andb_true_iff in H as [Hu Hs]. rewrite (IH Hs).
  unfold plainUnit in Hu. apply andb_true_iff in Hu as [Hu _].
  apply negb_true_iff in Hu. now rewrite Hu.
Qed.

Lemma collapse_ws_plain : forall s inRun,
  forallb plainUnit s = true -> singleSpaced s = true ->
  (inRun = true -> startsClean s = true) ->
  collapse_ws_from inRun s = s.
Proof.
  induction s as [|u s IH]; intros inRun Hp Hs Hc; [reflexivity|].
  simpl in Hp. apply andb_true_iff in Hp as [Hu Hp].
  rewrite singleSpaced_cons in Hs. apply andb_true_iff in Hs as [Hus Hs].
  simpl. destruct (isSpace u) eqn:Eu.
  - destruct inRun; [specialize (Hc eq_refl); simpl in Hc; now rewrite Eu in Hc|].
    unfold plainUnit in Hu. rewrite Eu in Hu. simpl in Hu.
    apply andb_true_iff in Hu as [_ Hu]. apply N.eqb_eq in Hu. subst u.
    f_equal. apply IH; auto. intros _.
    simpl in Hus. now apply negb_true_iff, negb_false_iff in Hus.
  - f_equal. apply IH; auto. discriminate.
Qed.

Section LocationMore.
Context {R : Runtime}.

Lemma normalizeLocation_canonical loc :
  canonicalLocation (normalizeLocation loc) = true.
Proof.
  unfold canonicalLocation, normalizeLocation.
  destruct (collapse_ws_from_shape (blankAll isDotOrComma (toLowerCase loc)) false)
    as (P & S & _).
  destruct (trim_clean_edges (collapse_ws (blankAll isDotOrComma (toLowerCase loc))))
    as [C1 C2].
  rewrite C1, C2, !andb_true_r. apply andb_true_iff. split.
  - apply forallb_trim, P, blankAll_no_dots.
  - apply singleSpaced_trim, S.
Qed.

Lemma normalizeLocation_fixed s :
  canonicalLocation s = true -> toLowerCase s = s -> normalizeLocation s = s.
Proof.
  unfold canonicalLocation, normalizeLocation. intros H L.
  apply andb_true_iff in H as [H C2]. apply andb_true_iff in H as [H C1].
  apply andb_true_iff in H as [P S].
  rewrite L, (blankAll_plain _ P). unfold collapse_ws.
  rewrite (@collapse_ws_plain s false P S) by discriminate.
  now apply trim_clean.
Qed.

Lemma for_of_exists A (f : A -> bool) xs :
  for_of xs (fun x => if f x then Some true else None) false = existsb f xs.
Proof.
  induction xs as [|x xs IH]; [reflexivity|]. simpl.
  destruct (f x); [reflexivity | exact IH].
Qed.

Lemma existsb_mapped A B (f : B -> bool) (g : A -> B) xs :
  existsb f (map g xs) = existsb (fun x => f (g x)) xs.
Proof. induction xs as [|x xs IH]; [reflexivity|]. simpl. now rewrite IH. Qed.

Lemma existsb_same A (f g : A -> bool) xs :
  (forall x, f x = g x) -> existsb f xs = existsb g xs.
Proof.
  intro H. induction xs as [|x xs IH]; [reflexivity|]. simpl. now rewrite H, IH.
Qed.

Lemma areNicknameVariants_groups n1 n2 :
  areNicknameVariants n1 n2 =
  eqb (toLowerCase n1) (toLowerCase n2)
  || existsb (fun g => has g (toLowerCase n1) && has g (toLowerCase n2)) nicknameGroups.
Proof.
  unfold areNicknameVariants. cbv zeta.
  destruct (eqb (toLowerCase n1) (toLowerCase n2)); [reflexivity|].
  rewrite (for_of_exists
    (fun entry => has (fst entry :: snd entry) (toLowerCase n1)
                  && has (fst entry :: snd entry) (toLowerCase n2))).
  unfold nicknameGroups. now rewrite existsb_mapped.
Qed.

Lemma eqb_sym (a b : jsstring) : eqb a b = eqb b a.
Proof.
  destruct (eqb a b) eqn:E1, (eqb b a) eqn:E2; try reflexivity.
  - apply eqb_eq in E1. subst. now rewrite eqb_refl in E2.
  - apply eqb_eq in E2. subst. now rewrite eqb_refl in E1.
Qed.

Lemma areNicknameVariants_sym n1 n2 :
  areNicknameVariants n1 n2 = areNicknameVariants n2 n1.
Proof.
  rewrite !areNicknameVariants_groups, (eqb_sym (toLowerCase n1)).
  f_equal. apply existsb_same. intro g. apply andb_comm.
Qed.

Lemma has_In g x : has g x = true <-> In x g.
Proof.
  unfold has. rewrite existsb_exists. split.
  - intros (y & Hy & E). apply eqb_eq in E. now subst.
  - intro H. exists x. split; [exact H | apply eqb_refl].
Qed.

Lemma nicknameGroups_disjoint : disjointGroups nicknameGroups = true.
Proof. vm_compute. reflexivity. Qed.

Lemma disjointGroups_same groups g1 g2 x :
  disjointGroups groups = true -> In g1 groups -> In g2 groups ->
  has g1 x = true -> has g2 x = true -> g1 = g2.
Proof.
  unfold disjointGroups. intros D I1 I2 H1 H2.
  rewrite forallb_forall in D. specialize (D g1 I1).
  rewrite forallb_forall in D. specialize (D g2 I2).
  apply orb_true_iff in D as [D|D].
  - unfold listEqb in D.
    destruct (list_eq_dec (list_eq_dec N.eq_dec) g1 g2); [assumption | discriminate].
  - apply negb_true_iff in D.
    assert (existsb (has g2) g1 = true); [|congruence].
    apply existsb_exists. exists x. split; [now apply has_In | exact H2].
Qed.

Lemma areNicknameVariants_trans n1 n2 n3 :
  areNicknameVariants n1 n2 = true -> areNicknameVariants n2 n3 = true ->
  areNicknameVariants n1 n3 = true.
Proof.
  rewrite !areNicknameVariants_groups. intros H12 H23.
  apply orb_true_iff in H12 as [E|H12].
  { apply eqb_eq in E. now rewrite E. }
  apply orb_true_iff in H23 as [E|H23].
  { apply eqb_eq in E. rewrite <- E. now rewrite H12, orb_true_r. }
  apply existsb_exists in H12 as (g1 & I1 & H12).
  apply existsb_exists in H23 as (g2 & I2 & H23).
  apply andb_true_iff in H12 as [A1 B1]. apply andb_true_iff in H23 as [B2 C2].
  assert (g1 = g2)
    by (apply (@disjointGroups_same nicknameGroups g1 g2 _ nicknameGroups_disjoint I1 I2 B1 B2)).
  subst g2. apply orb_true_iff. right.
  apply existsb_exists. exists g1. split; [exact I1 | now rewrite A1, C2].
Qed.

Lemma areNicknameVariants_refl n : areNicknameVariants n n = true.
Proof. rewrite areNicknameVariants_groups, eqb_refl. reflexivity. Qed.

Lemma matchLocationAlias_sym p q : matchLocationAlias p q = matchLocationAlias q p.
Proof.
  unfold matchLocationAlias. cbv zeta.
  rewrite !(for_of_exists (fun entry =>
     existsb _ (fst entry :: snd entry) && existsb _ (fst entry :: snd entry))).
  apply existsb_same. intro e. apply andb_comm.
Qed.

Lemma matchLocation_sym p q : matchLocation p q = matchLocation q p.
Proof.
  unfold matchLocation.
  destruct p as [[|u p]|], q as [[|v q]|]; try reflexivity.
  cbv zeta. rewrite (eqb_sym (normalizeLocation (v :: q))).
  rewrite (matchLocationAlias_sym (v :: q)).
  rewrite (orb_comm (includes (normalizeLocation (v :: q)) _)).
  now rewrite (similarity_sym (normalizeLocation (v :: q))).
Qed.

End LocationMore.

(** ** Names *)

Lemma split_ws_from_words : forall s cur inRun,
  forallb (fun u => negb (isSpace u)) cur = true ->
  forallb (fun w => forallb (fun u => negb (isSpace u)) w)
    (split_ws_from cur inRun s) = true.
Proof.
  induction s as [|u s IH]; intros cur inRun Hc; simpl.
  - rewrite andb_true_r. rewrite forallb_forall in *. intros x Hx.
    apply Hc. now apply in_rev.
  - destruct (isSpace u) eqn:E.
    + destruct inRun; [now apply IH|]. simpl. rewrite IH by reflexivity.
      rewrite andb_true_r. rewrite forallb_forall in *. intros x Hx.
      apply Hc. now apply in_rev.
    + apply IH. simpl. now rewrite E, Hc.
Qed.

Lemma tokens_are_words s :
  forallb isWord (filterBoolean (split_ws s)) = true.
Proof.
  unfold filterBoolean, split_ws.
  pose proof (@split_ws_from_words s [] false eq_refl) as H.
  rewrite forallb_forall in *. intros w Hw. apply filter_In in Hw as [Hin Hne].
  unfold isWord. rewrite Hne. simpl. now apply H.
Qed.

(** Joining words with a space loses nothing. *)
Lemma word_prefix_unique (w w' x x' : jsstring) :
  forallb (fun u => negb (isSpace u)) w = true ->
  forallb (fun u => negb (isSpace u)) w' = true ->
  startsClean x = false \/ x = [] -> startsClean x' = false \/ x' = [] ->
  w ++ x = w' ++ x' -> w = w' /\ x = x'.
Proof.
  revert w'. induction w as [|u w IH]; intros w' Hw Hw' Hx Hx' E.
  - destruct w' as [|u' w']; [auto|]. simpl in *.
    apply andb_true_iff in Hw' as [Hu' _].
    destruct Hx as [Hx|Hx]; subst; [|discriminate].
    simpl in Hx. now rewrite Hu' in Hx.
  - destruct w' as [|u' w'].
    + simpl in *. apply andb_true_iff in Hw as [Hu _].
      destruct Hx' as [Hx'|Hx']; subst; [|discriminate].
      simpl in Hx'. now rewrite Hu in Hx'.
    + simpl in *. injection E as -> E.
      apply andb_true_iff in Hw as [_ Hw]. apply andb_true_iff in Hw' as [_ Hw'].
      destruct (IH w' Hw Hw' Hx Hx' E) as [-> ->]. auto.
Qed.

Lemma join_space_cons w rest :
  join_space (w :: rest) =
  w ++ match rest with [] => [] | _ :: _ => 32%N :: join_space rest end.
Proof. destruct rest; simpl; [now rewrite app_nil_r | reflexivity]. Qed.

Lemma join_space_injective : forall l l',
  forallb isWord l = true -> forallb isWord l' = true ->
  join_space l = join_space l' -> l = l'.
Proof.
  assert (Nonempty : forall l, forallb isWord l = true -> join_space l = [] -> l = []).
  { intros [|w l] H E; [reflexivity|]. rewrite join_space_cons in E.
    simpl in H. apply andb_true_iff in H as [Hw _]. unfold isWord in Hw.
    destruct w; [discriminate|discriminate]. }
  induction l as [|w l IH]; intros l' H H' E.
  - symmetry. apply Nonempty; [exact H' | now rewrite <- E].
  - destruct l' as [|w' l']; [now apply Nonempty|].
    rewrite !join_space_cons in E. simpl in H, H'.
    apply andb_true_iff in H as [Hw Hl]. apply andb_true_iff in H' as [Hw' Hl'].
    unfold isWord in Hw, Hw'.
    apply andb_true_iff in Hw as [_ Hw]. apply andb_true_iff in Hw' as [_ Hw'].
    apply word_prefix_unique in E as [-> E]; auto.
    + f_equal. destruct l as [|x l], l' as [|x' l']; try discriminate; auto.
      injection E as E. now apply IH.
    + destruct l; [now right | now left].
    + destruct l'; [now right | now left].
Qed.

Section NameMore.
Context {R : Runtime}.

(** X12.  [matchName] returns 1 exactly when both names have tokens and
    the same ones: equal after trimming, lower-casing and splitting on
    white space. *)
Theorem matchName_exact p q :
  (matchName p q == 1)%Q <-> nameTokens p <> [] /\ nameTokens p = nameTokens q.
Proof.
  unfold matchName, nameTokens.
  destruct (option_map trim p) as [[|u n1]|] eqn:Ep;
    try (split; [intro H; discriminate | intros [H _]; congruence]).
  destruct (option_map trim q) as [[|v n2]|] eqn:Eq.
  1,3: split; [intro H; discriminate|].
  1,2: intros [H E]; rewrite E in H; congruence.
  assert (T1 : trim (u :: n1) = u :: n1).
  { destruct p as [p|]; [|discriminate]. simpl in Ep. injection Ep as <-.
    apply trim_idempotent. }
  assert (T2 : trim (v :: n2) = v :: n2).
  { destruct q as [q|]; [|discriminate]. simpl in Eq. injection Eq as <-.
    apply trim_idempotent. }
  cbv zeta.
  set (p1 := filterBoolean (split_ws (toLowerCase (u :: n1)))).
  set (p2 := filterBoolean (split_ws (toLowerCase (v :: n2)))).
  assert (W1 : forallb isWord p1 = true) by apply tokens_are_words.
  assert (W2 : forallb isWord p2 = true) by apply tokens_are_words.
  destruct (eqb (join_space p1) (join_space p2)) eqn:J.
  - apply eqb_eq in J. apply join_space_injective in J; auto.
    destruct p1 as [|t1 r1]; simpl.
    + split; [intro H; discriminate | intros [H _]; congruence].
    + rewrite <- J. simpl. split; [intros _; split; [discriminate|reflexivity]|reflexivity].
  - assert (Hne : p1 <> p2).
    { intro E. rewrite E, eqb_refl in J. discriminate. }
    split; [|intros [_ E]; congruence]. intro H. exfalso.
    destruct ((length p1 =? 0) || (length p2 =? 0)); [discriminate|].
    match type of H with
    | ((if ?c then _ else _) == 1)%Q => destruct c
    end.
    + destruct (_ && _); [destruct (gt _ _)|]; discriminate.
    + destruct (_ && _).
      * destruct (_ && _); [|discriminate].
        pose proof (similarity_le_1 (last p1 []) (last p2 [])). lra.
      * apply similarity_one in H; [|rewrite T1; discriminate|rewrite T2; discriminate].
        rewrite T1, T2 in H. apply Hne. unfold p1, p2. now rewrite H.
Qed.

End NameMore.

(** ** Bio matchers, emails and phones *)

Lemma startsWith_length s p : startsWith s p = true -> length p <= length s.
Proof.
  revert s; induction p as [|x p IH]; intros s H; simpl; [lia|].
  destruct s as [|y s]; [discriminate|]. simpl in H.
  apply andb_true_iff in H as [_ H]. apply IH in H. simpl. lia.
Qed.

Lemma includes_length s p : includes s p = true -> length p <= length s.
Proof.
  induction s as [|y s IH]; intro H.
  - destruct p; [simpl; lia | discriminate].
  - cbn [includes] in H. apply orb_true_iff in H as [H|H].
    + apply startsWith_length in H. exact H.
    + apply IH in H. simpl. lia.
Qed.

Lemma sliceLast_length n s : length (sliceLast n s) = Nat.min n (length s).
Proof. unfold sliceLast. rewrite length_skipn. lia. Qed.

Lemma forallb_skipn A (f : A -> bool) n l :
  forallb f l = true -> forallb f (skipn n l) = true.
Proof.
  intro H. rewrite forallb_forall in *. intros x Hx. apply H.
  rewrite <- (firstn_skipn n l). apply in_or_app. now right.
Qed.

Lemma removeAll_none cls s : forallb (fun u => negb (cls u)) (removeAll cls s) = true.
Proof.
  unfold removeAll. rewrite forallb_forall. intros u Hu.
  now apply filter_In in Hu as [_ Hu].
Qed.

(** X10.  [normalizePhone] returns at most ten units, all of them digits. *)
Theorem normalizePhone_shape phone :
  length (normalizePhone phone) <= 10
  /\ forallb isDigit (normalizePhone phone) = true.
Proof.
  unfold normalizePhone. split.
  - rewrite sliceLast_length. lia.
  - unfold sliceLast. apply forallb_skipn.
    pose proof (removeAll_none isNonDigit phone) as H.
    rewrite forallb_forall in *. intros u Hu. specialize (H u Hu).
    unfold isNonDigit in H. now rewrite negb_involutive in H.
Qed.

Section MatchersMore.
Context {R : Runtime}.
Open Scope Q_scope.

Lemma keyword_share_bound (c : Q) A (f : A -> bool) (words : list A) :
  0 <= c ->
  0 <= (if (0 <? length (filter f words))%nat
        then c * ratio (length (filter f words)) (length words)
        else 0) <= c.
Proof.
  intro Hc.
  destruct (Nat.ltb_spec 0 (length (filter f words))) as [Hpos|_]; [|lra].
  pose proof (filter_length_le f words) as Hle.
  destruct (@ratio_bounds (length (filter f words)) (length words)) as [H0 H1];
    [exact Hle | lia |].
  unfold ratio. nra.
Qed.

(** X13.  [matchEmployerInBio] on present operands is 1 when the
    lower-cased bio contains the lower-cased employer, and otherwise at
    most 0.5 and not negative. *)
Theorem matchEmployerInBio_partial_credit (employer bio : jsstring) :
  employer <> [] -> bio <> [] ->
  if includes (toLowerCase bio) (toLowerCase employer)
  then matchEmployerInBio (Some employer) (Some bio) = 1
  else 0 <= matchEmployerInBio (Some employer) (Some bio) <= 0.5.
Proof.
  intros He Hb. unfold matchEmployerInBio.
  destruct employer as [|u e]; [congruence|]. destruct bio as [|v b]; [congruence|].
  cbv zeta. destruct (includes _ _); [reflexivity|].
  apply keyword_share_bound. lra.
Qed.

(** X14.  [matchJobTitleInBio] on present operands is 1 when the
    lower-cased bio contains the lower-cased title, and otherwise at most
    0.6 and not negative. *)
Theorem matchJobTitleInBio_partial_credit (jobTitle bio : jsstring) :
  jobTitle <> [] -> bio <> [] ->
  if includes (toLowerCase bio) (toLowerCase jobTitle)
  then matchJobTitleInBio (Some jobTitle) (Some bio) = 1
  else 0 <= matchJobTitleInBio (Some jobTitle) (Some bio) <= 0.6.
Proof.
  intros He Hb. unfold matchJobTitleInBio.
  destruct jobTitle as [|u e]; [congruence|]. destruct bio as [|v b]; [congruence|].
  cbv zeta. destruct (includes _ _); [reflexivity|].
  match goal with
  | |- _ <= (if ?c then _ else _) <= _ =>
      destruct c eqn:E;
      [generalize (@keyword_share_bound 0.6 _
         (fun w => includes (toLowerCase (v :: b)) w)
         (filter (fun w => (3 <? length w)%nat) (split_ws (toLowerCase (u :: e)))));
       rewrite E; intro K; apply K; lra|]
  end.
  pose proof (similarity_le_1 (toLowerCase (u :: e)) (toLowerCase (v :: b))).
  destruct (gt _ 0.5) eqn:G; [apply gt_spec in G|]; lra.
Qed.

(** The three matchers with fixed tiers. *)
Lemma matchEmailToUsername_tiers emails username :
  In (matchEmailToUsername emails username) [0; 0.7; 0.9; 1].
Proof.
  unfold matchEmailToUsername.
  destruct (truthyOM emails); simpl negb; cbv iota; [|simpl; auto].
  destruct emails as [emails|]; [|simpl; auto].
  destruct username as [[|u name]|]; try (simpl; auto).
  apply for_of_all; [|simpl; auto].
  intros email v. cbv zeta.
  destruct (eqb _ _); [intro E; injection E as <-; simpl; auto|].
  destruct (eqb _ _); [intro E; injection E as <-; simpl; auto|].
  destruct (_ || _); [intro E; injection E as <-; simpl; auto|].
  discriminate.
Qed.

Lemma matchPhoneInBio_tiers phones bio :
  In (matchPhoneInBio phones bio) [0; 0.8; 1].
Proof.
  unfold matchPhoneInBio.
  destruct (truthyOM phones); simpl negb; cbv iota; [|simpl; auto].
  destruct phones as [phones|]; [|simpl; auto].
  destruct bio as [[|u b]|]; try (simpl; auto).
  apply for_of_all; [|simpl; auto].
  intros phone v. cbv zeta.
  destruct (_ && _); [intro E; injection E as <-; simpl; auto|].
  destruct (_ && _); [intro E; injection E as <-; simpl; auto|].
  discriminate.
Qed.

Lemma matchDateOfBirth_tiers dob bio :
  In (matchDateOfBirth dob bio) [0; 0.7; 1].
Proof.
  unfold matchDateOfBirth.
  destruct dob as [[|u d]|]; try (simpl; auto).
  destruct bio as [[|v b]|]; try (simpl; auto).
  destruct (parseDate _); [|simpl; auto].
  destruct (extractYearFromBio _); [|simpl; auto].
  destruct (_ =? 0)%Z; [simpl; auto|].
  destruct (_ =? _)%Z; [simpl; auto|].
  destruct (_ <=? _)%Z; simpl; auto.
Qed.

(** X16.  A username that is nothing but digits, dots, underscores and
    hyphens once lower-cased scores at least 0.7 against any email that
    comes first. *)
Theorem matchEmailToUsername_numeric_username emails (username : jsstring) :
  truthyOM (Some emails) = true -> asList emails <> [] -> username <> [] ->
  stripped (toLowerCase username) = [] ->
  0.7 <= matchEmailToUsername (Some emails) (Some username).
Proof.
  intros He Hl Hu Hs. rewrite matchEmailToUsername_loop by assumption.
  destruct (asList emails) as [|email rest]; [congruence|]. simpl.
  unfold emailTier. rewrite Hs, includes_nil, orb_true_r.
  destruct (eqb _ _); [lra|]. destruct (eqb _ _); lra.
Qed.

End MatchersMore.

(** X17.  Phones with fewer than seven digits never match, whatever the
    bio holds. *)
Theorem matchPhoneInBio_short phones bio :
  forallb (fun phone => length (removeAll isNonDigit phone) <? 7) (asList phones) = true ->
  matchPhoneInBio (Some phones) bio = 0%Q.
Proof.
  intro H. unfold matchPhoneInBio.
  destruct (truthyOM (Some phones)); simpl negb; cbv iota; [|reflexivity].
  destruct bio as [[|u b]|]; try reflexivity.
  apply for_of_none. rewrite forallb_forall in H. apply Forall_forall.
  intros phone Hin. specialize (H phone Hin). apply Nat.ltb_lt in H.
  cbv zeta.
  assert (L : (7 <=? length (normalizePhone phone)) = false).
  { apply Nat.leb_gt. unfold normalizePhone. rewrite sliceLast_length. lia. }
  now rewrite L.
Qed.

(** X18.  A bio with fewer than seven digits matches no phone. *)
Theorem matchPhoneInBio_sparse_bio phones (bio : jsstring) :
  length (removeAll isNonDigit bio) < 7 ->
  matchPhoneInBio phones (Some bio) = 0%Q.
Proof.
  intro H. unfold matchPhoneInBio.
  destruct (truthyOM phones); simpl negb; cbv iota; [|reflexivity].
  destruct phones as [phones|]; [|reflexivity].
  destruct bio as [|u b]; [reflexivity|].
  set (bioDigits := removeAll isNonDigit (u :: b)) in *.
  apply for_of_none. apply Forall_forall. intros phone _. cbv zeta.
  destruct (Nat.leb_spec 7 (length (normalizePhone phone))) as [L|L];
    [|reflexivity].
  cbn [andb].
  destruct (includes _ (normalizePhone phone)) eqn:I1.
  { apply includes_length in I1. lia. }
  destruct (includes _ (sliceLast 7 _)) eqn:I2; [|reflexivity].
  apply includes_length in I2. rewrite sliceLast_length in I2. lia.
Qed.

(** ** Years, factors and verdicts *)

Lemma bornPattern_group bio g :
  search bornPattern bio = Some g ->
  length g = 4 /\ forallb isDigit g = true.
Proof.
  intro H. destruct (search_found _ _ H) as (t & cap & Hrun & ->). clear H.
  unfold bornPattern in Hrun.
  rewrite run_Seq in Hrun.
  apply run_groupFree in Hrun as (s1 & Hrun); [|reflexivity].
  rewrite run_Seq in Hrun.
  apply run_groupFree in Hrun as (s2 & Hrun); [|reflexivity].
  rewrite run_Seq in Hrun.
  apply run_groupFree in Hrun as (s3 & Hrun); [|reflexivity].
  rewrite run_Group, run_Rep in Hrun.
  apply greedy_consumes in Hrun as (pre & s' & -> & Hall & Hlo & Hhi & Hk).
  injection Hk as <-.
  rewrite length_app, Nat.add_sub, firstn_app, firstn_all, Nat.sub_diag.
  simpl. rewrite app_nil_r.
  specialize (Hhi 4 eq_refl). split; [lia | exact Hall].
Qed.

Lemma parseInt_four_digits g :
  length g = 4 -> forallb isDigit g = true -> (0 <= parseInt g <= 9999)%Z.
Proof.
  intros Hlen Hdig.
  assert (Dg : forall u, isDigit u = true -> (48 <= Z.of_N u <= 57)%Z).
  { intros u Hu. unfold isDigit in Hu. apply andb_true_iff in Hu as [H1 H2].
    apply N.leb_le in H1, H2. lia. }
  destruct g as [|a [|b [|c [|d [|e g]]]]]; simpl in Hlen; try lia.
  simpl in Hdig. rewrite andb_true_r in Hdig.
  apply andb_true_iff in Hdig as [Ha Hdig].
  apply andb_true_iff in Hdig as [Hb Hdig].
  apply andb_true_iff in Hdig as [Hc Hd].
  unfold parseInt. simpl. rewrite Ha, Hb, Hc, Hd. simpl.
  apply Dg in Ha, Hb, Hc, Hd. lia.
Qed.

Section ScoreMore.
Context {R : Runtime}.
Open Scope Q_scope.

(** X11.  A year that [extractYearFromBio] returns either comes from the
    born pattern and lies between 0 and 9999, or comes from the age pattern
    and lies between 99 and 11 years before the current year. *)
Theorem extractYearFromBio_years bio y :
  extractYearFromBio bio = Some y ->
  (search bornPattern bio <> None /\ (0 <= y <= 9999)%Z)
  \/ (search bornPattern bio = None
      /\ (currentYear - 99 <= y <= currentYear - 11)%Z).
Proof.
  intro H. destruct (search bornPattern bio) as [g|] eqn:Eb.
  - left. split; [discriminate|].
    unfold extractYearFromBio in H. rewrite Eb in H. injection H as <-.
    destruct (bornPattern_group _ Eb). now apply parseInt_four_digits.
  - right. split; [reflexivity|].
    destruct (search agePattern bio) as [g|] eqn:Ea.
    + destruct (extractYearFromBio_age _ Eb Ea) as [Hage Hy].
      rewrite Hy in H. destruct (Z.ltb_spec 10 (parseInt g)); [|discriminate].
      injection H as <-. lia.
    + unfold extractYearFromBio in H. rewrite Eb, Ea in H. discriminate.
Qed.

Lemma profile_of_tally (t : Tally) profile :
  MatchResult.profile
    (let '(factors, score, weight) := t in
     {| MatchResult.profile := profile;
        MatchResult.score :=
          if gt weight 0
          then inject_Z (Math_round (score / weight * 100)) / 100
          else 0;
        MatchResult.factors := factors |})
  = profile.
Proof. destruct t as [[f sc] wt]. reflexivity. Qed.

Lemma factors_of_tally (t : Tally) profile :
  MatchResult.factors
    (let '(factors, score, weight) := t in
     {| MatchResult.profile := profile;
        MatchResult.score :=
          if gt weight 0
          then inject_Z (Math_round (score / weight * 100)) / 100
          else 0;
        MatchResult.factors := factors |})
  = fst (fst t).
Proof. destruct t as [[f sc] wt]. reflexivity. Qed.

Lemma calculateMatchScore_profile person profile :
  MatchResult.profile (calculateMatchScore person profile) = profile.
Proof. unfold calculateMatchScore. cbv zeta. apply profile_of_tally. Qed.

Lemma calculateMatchScore_factors person profile :
  MatchResult.factors (calculateMatchScore person profile)
  = reportedFactors person profile.
Proof.
  unfold calculateMatchScore, reportedFactors. cbv zeta.
  rewrite factors_of_tally. fold (displayNameOf profile).
  destruct (truthy (Person.name person) && truthy (displayNameOf profile));
  destruct (truthy (Person.location person) && truthy (Profile.location profile));
  destruct (truthy (Person.employer person) && truthy (Profile.bio profile));
  destruct (truthy (Person.jobTitle person) && truthy (Profile.bio profile));
  destruct (truthyOM (Person.email person) && truthy (Some (Profile.username profile)));
  destruct (truthyOM (Person.phone person) && truthy (Profile.bio profile));
  destruct (truthy (Person.dateOfBirth person) && truthy (Profile.bio profile));
  reflexivity.
Qed.

End ScoreMore.

Section VerdictMore.
Context {R : Runtime}.
Open Scope Q_scope.

(** X20.  Against a profile without a bio, the employer, job title, phone
    and date of birth of the person change nothing. *)
Theorem calculateMatchScore_no_bio person profile :
  truthy (Profile.bio profile) = false ->
  calculateMatchScore person profile
  = calculateMatchScore (withoutBioFields person) profile.
Proof.
  intro H. unfold calculateMatchScore, withoutBioFields. cbv zeta.
  cbn [Person.name Person.email Person.phone Person.location
       Person.dateOfBirth Person.employer Person.jobTitle].
  rewrite H, !andb_false_r. reflexivity.
Qed.

(** The verdict depends on the profile through its display name in either
    spelling, its location, its bio and its username. *)
Lemma calculateMatchScore_reads person p1 p2 :
  displayNameOf p1 = displayNameOf p2 ->
  Profile.location p1 = Profile.location p2 ->
  Profile.bio p1 = Profile.bio p2 ->
  Profile.username p1 = Profile.username p2 ->
  sameVerdict (calculateMatchScore person p1) (calculateMatchScore person p2).
Proof.
  intros Hd Hl Hb Hu. unfold sameVerdict, calculateMatchScore. cbv zeta.
  fold (displayNameOf p1). fold (displayNameOf p2).
  rewrite !score_of_tally, !factors_of_tally, Hd, Hl, Hb, Hu. auto.
Qed.

Lemma display_name_ignored person profile x :
  truthy (Profile.displayName profile) = true ->
  sameVerdict (calculateMatchScore person profile)
              (calculateMatchScore person (withDisplay_name x profile)).
Proof.
  intro H. apply calculateMatchScore_reads; try reflexivity.
  unfold displayNameOf, withDisplay_name. simpl. now rewrite H.
Qed.

Lemma display_name_fallback person profile :
  truthy (Profile.displayName profile) = false ->
  sameVerdict (calculateMatchScore person profile)
    (calculateMatchScore person
       (withDisplayName (Profile.display_name profile) profile)).
Proof.
  intro H. apply calculateMatchScore_reads; try reflexivity.
  unfold displayNameOf, withDisplayName. simpl. rewrite H.
  now destruct (truthy (Profile.display_name profile)).
Qed.

Lemma numerator_all_one fs :
  Forall (fun f => matcherScore f == 1) fs -> numerator fs == denominator fs.
Proof.
  induction 1 as [|f fs Hf _ IH]; simpl; [reflexivity|]. rewrite Hf, IH. ring.
Qed.

Lemma numerator_all_zero fs :
  Forall (fun f => matcherScore f == 0) fs -> numerator fs == 0.
Proof.
  induction 1 as [|f fs Hf _ IH]; simpl; [reflexivity|]. rewrite Hf, IH. ring.
Qed.

Lemma overallScore_all_one person profile :
  applicable (fieldPairs person profile) <> [] ->
  Forall (fun f => matcherScore f == 1) (applicable (fieldPairs person profile)) ->
  overallScore person profile == 1.
Proof.
  intros Hne H1. unfold overallScore.
  pose proof (Forall_applicable (fieldPairs_weights person profile)) as Hpos.
  destruct (applicable (fieldPairs person profile)) as [|f fs]; [congruence|].
  assert (Dpos : 0 < denominator (f :: fs))
    by (apply denominator_positive; [exact Hpos | discriminate]).
  transitivity (round2 1); [|reflexivity]. apply round2_proper.
  rewrite (numerator_all_one H1). field. lra.
Qed.

Lemma overallScore_all_zero person profile :
  Forall (fun f => matcherScore f == 0) (applicable (fieldPairs person profile)) ->
  overallScore person profile == 0.
Proof.
  intros H0. unfold overallScore.
  destruct (applicable (fieldPairs person profile)) as [|f fs]; [reflexivity|].
  transitivity (round2 0); [|reflexivity]. apply round2_proper.
  rewrite (numerator_all_zero H0). unfold Qdiv. ring.
Qed.


Lemma matchProfiles_profiles person profiles :
  Permutation (map MatchResult.profile (matchProfiles person profiles)) profiles.
Proof.
  unfold matchProfiles.
  rewrite (Array_sort_perm MatchResult.score
             (map (fun p => calculateMatchScore person p) profiles)).
  rewrite map_map.
  rewrite (map_ext _ (fun p => p)) by apply calculateMatchScore_profile.
  now rewrite map_id.
Qed.

Lemma matchProfiles_each person profiles r :
  In r (matchProfiles person profiles) ->
  In (MatchResult.profile r) profiles
  /\ r = calculateMatchScore person (MatchResult.profile r).
Proof.
  intro H. unfold matchProfiles in H.
  apply (Permutation_in _
           (Array_sort_perm MatchResult.score
              (map (fun p => calculateMatchScore person p) profiles))) in H.
  apply in_map_iff in H as (p & <- & Hp).
  rewrite calculateMatchScore_profile. auto.
Qed.

End VerdictMore.

(** ** The schema and the handler *)

Lemma all_length A (s : Zod.schema A) xs ys :
  Zod.all s xs = Some ys -> length ys = length xs.
Proof.
  revert ys; induction xs as [|x xs IH]; intros ys H; simpl in H.
  - now injection H as <-.
  - destruct (s (Some x)); [|discriminate].
    destruct (Zod.all s xs) as [others|]; [|discriminate].
    injection H as <-. simpl. f_equal. now apply IH.
Qed.

Lemma all_each A (s : Zod.schema A) xs ys x :
  Zod.all s xs = Some ys -> In x xs -> s (Some x) <> None.
Proof.
  revert ys; induction xs as [|y xs IH]; intros ys H Hin; [contradiction|].
  simpl in H. destruct (s (Some y)) eqn:E; [|discriminate].
  destruct (Zod.all s xs) as [others|] eqn:Ea; [|discriminate].
  destruct Hin as [->|Hin]; [congruence | now apply (IH others)].
Qed.

Lemma MatchRequestSchema_accepts body data :
  MatchRequestSchema body = Some data ->
  exists props xs,
    body = Some (JObject props)
    /\ PersonSchema (get props (lit "person")) = Some (MatchRequest.person data)
    /\ get props (lit "profiles") = Some (JArray xs)
    /\ Zod.all ProfileSchema xs = Some (MatchRequest.profiles data)
    /\ 1 <= length xs <= 20.
Proof.
  intro H. destruct body as [[| | | | |props]|]; try discriminate.
  unfold MatchRequestSchema, Zod.object, Zod.bind in H.
  destruct (PersonSchema _) as [person|] eqn:Ep; [|discriminate].
  unfold Zod.max, Zod.min, Zod.array in H.
  destruct (get props (lit "profiles")) as [[| | | |xs|]|] eqn:Eg; try discriminate.
  destruct (Zod.all ProfileSchema xs) as [ps|] eqn:Ea; [|discriminate].
  destruct (Nat.leb_spec 1 (length ps)); [|discriminate].
  destruct (Nat.leb_spec (length ps) 20); [|discriminate].
  injection H as <-. simpl. exists props, xs.
  pose proof (all_length _ _ Ea). repeat split; auto; lia.
Qed.

Section HandlerFacts.
Context {R : Runtime}.

(** X25.  When [POST /match] answers with matches, the body passed the
    schema, there is one match per profile of the request, between 1 and
    20 in all, they carry the request's profiles, and they are in
    descending order of score. *)
Theorem postMatch_ok body matches :
  postMatch body = Matches matches ->
  exists data,
    MatchRequestSchema body = Some data
    /\ length matches = length (MatchRequest.profiles data)
    /\ 1 <= length matches <= 20
    /\ Permutation (map MatchResult.profile matches) (MatchRequest.profiles data)
    /\ StronglySorted (fun x y => (MatchResult.score y <= MatchResult.score x)%Q)
         matches.
Proof.
  unfold postMatch. intro H.
  destruct (MatchRequestSchema body) as [data|] eqn:E; [|discriminate].
  injection H as <-. exists data.
  pose proof (matchProfiles_profiles (MatchRequest.person data)
                (MatchRequest.profiles data)) as P.
  assert (L : length (matchProfiles (MatchRequest.person data)
                        (MatchRequest.profiles data))
              = length (MatchRequest.profiles data)).
  { rewrite <- (Permutation_length P). now rewrite length_map. }
  destruct (MatchRequestSchema_accepts _ E) as (props & xs & _ & _ & _ & Ha & Hb).
  apply all_length in Ha.
  repeat split; auto; try lia.
  apply Sorted_StronglySorted; [apply descending_trans|].
  apply Array_sort_sorted.
Qed.

Lemma postMatch_rejects props :
  (forall xs, get props (lit "profiles") = Some (JArray xs) ->
     length xs = 0 \/ 20 < length xs ->
     postMatch (Some (JObject props)) = ValidationError)
  /\ (forall xs p, get props (lit "profiles") = Some (JArray xs) ->
        In (JObject p) xs ->
        Zod.string (get p (lit "platform")) = None
        \/ Zod.string (get p (lit "username")) = None ->
        postMatch (Some (JObject props)) = ValidationError)
  /\ (get props (lit "person") = None ->
      postMatch (Some (JObject props)) = ValidationError)
  /\ (get props (lit "profiles") = None ->
      postMatch (Some (JObject props)) = ValidationError).
Proof.
  assert (Rej : MatchRequestSchema (Some (JObject props)) = None ->
                postMatch (Some (JObject props)) = ValidationError).
  { unfold postMatch. now intros ->. }
  assert (Acc : forall data, MatchRequestSchema (Some (JObject props)) = Some data ->
     exists xs, get props (lit "person") <> None
       /\ get props (lit "profiles") = Some (JArray xs)
       /\ Zod.all ProfileSchema xs = Some (MatchRequest.profiles data)
       /\ 1 <= length xs <= 20).
  { intros data E. destruct (MatchRequestSchema_accepts _ E)
      as (props' & xs & Eb & Ep & Eg & Ea & Hl).
    injection Eb as <-. exists xs. repeat split; auto; try lia.
    intro N. rewrite N in Ep. discriminate. }
  repeat split.
  - intros xs Eg Hl. apply Rej.
    destruct (MatchRequestSchema _) as [data|] eqn:E; [|reflexivity].
    destruct (Acc _ eq_refl) as (xs' & _ & Eg' & _ & Hl').
    rewrite Eg in Eg'. injection Eg' as <-. lia.
  - intros xs p Eg Hin Hbad. apply Rej.
    destruct (MatchRequestSchema _) as [data|] eqn:E; [|reflexivity].
    destruct (Acc _ eq_refl) as (xs' & _ & Eg' & Ea & _).
    rewrite Eg in Eg'. injection Eg' as <-.
    exfalso. apply (all_each _ _ _ Ea Hin).
    unfold ProfileSchema, Zod.object, Zod.bind.
    destruct Hbad as [-> | Hu]; [reflexivity|].
    rewrite Hu. now destruct (Zod.string (get p (lit "platform"))).
  - intro N. apply Rej.
    destruct (MatchRequestSchema _) as [data|] eqn:E; [|reflexivity].
    destruct (Acc _ eq_refl) as (xs' & Hp & _). congruence.
  - intro N. apply Rej.
    destruct (MatchRequestSchema _) as [data|] eqn:E; [|reflexivity].
    destruct (Acc _ eq_refl) as (xs' & _ & Eg' & _). congruence.
Qed.

End HandlerFacts.

(** ** The handler on the requests of the integration suite *)

Section HandlerSuite.
Import SampleMore.

(** An empty person is accepted; nothing is compared and the score is 0. *)
Example empty_person_accepted :
  postMatch (R := node)
    (Some (JObject [(lit "person", JObject []);
                    (lit "profiles", JArray [profileJson "test" "Test"])]))
  = Matches [{| MatchResult.profile := Sample.shown "test" "Test";
                MatchResult.score := 0; MatchResult.factors := [] |}].
Proof. reflexivity. Qed.

Example twenty_profiles_accepted :
  status (postMatch (R := node) (requestWith (repeat (profileJson "u" "U") 20)))
  = 200.
Proof. vm_compute. reflexivity. Qed.

Example twenty_one_profiles_rejected :
  status (postMatch (R := node) (requestWith (repeat (profileJson "u" "U") 21)))
  = 400.
Proof. vm_compute. reflexivity. Qed.

Example missing_platform_rejected :
  postMatch (R := node)
    (requestWith [JObject [field "username" "test"; field "displayName" "Test"]])
  = ValidationError.
Proof. reflexivity. Qed.

Example missing_username_rejected :
  postMatch (R := node)
    (requestWith [JObject [field "platform" "x"; field "displayName" "Test"]])
  = ValidationError.
Proof. reflexivity. Qed.

Example empty_body_rejected :
  postMatch (R := node) (Some (JObject [])) = ValidationError.
Proof. reflexivity. Qed.

(** A key the schema does not declare is dropped; [profile_url] is kept. *)
Example profile_url_passed_through :
  postMatch (R := node)
    (requestWith [JObject [field "platform" "twitter"; field "username" "test";
                           field "followers" "12";
                           field "profile_url" "https://x.example/test"]])
  = Matches [{| MatchResult.profile :=
                  {| Profile.platform := lit "twitter";
                     Profile.username := lit "test";
                     Profile.displayName := None; Profile.display_name := None;
                     Profile.bio := None; Profile.location := None;
                     Profile.profileUrl := None;
                     Profile.profile_url := Some (lit "https://x.example/test") |};
                MatchResult.score := 0; MatchResult.factors := [] |}].
Proof. reflexivity. Qed.

End HandlerSuite.

(** * Further properties, by function *)

Section Further.
Open Scope Q_scope.
Import SampleMore.

(** X1.  [levenshtein] is a metric on strings: it is symmetric, it is 0
    exactly for equal strings, and it obeys the triangle inequality. *)
Theorem levenshtein_metric (a b c : jsstring) :
  levenshtein a b = levenshtein b a
  /\ (levenshtein a b = 0%nat <-> a = b)
  /\ (levenshtein a c <= levenshtein a b + levenshtein b c)%nat.
Proof.
  rewrite !levenshtein_distance. split; [apply distance_sym|].
  split; [apply distance_eq_0|].
  destruct (edits_compose (distance_sound b c) (distance_sound a b))
    as (k & Hk & Hed).
  apply distance_least in Hed. lia.
Qed.

Lemma levenshtein_metric_witness :
  levenshtein (lit "kitten") (lit "kitten") = 0%nat.
Proof.
  apply (proj2 (proj1 (proj2 (levenshtein_metric (lit "kitten") (lit "kitten") [])))).
  reflexivity.
Defined.

(** X2.  [levenshtein a b] is at least the difference of the two lengths
    and at most the greater length. *)
Theorem levenshtein_bounds (a b : jsstring) :
  (length a - length b <= levenshtein a b
   /\ length b - length a <= levenshtein a b
   /\ levenshtein a b <= Nat.max (length a) (length b))%nat.
Proof.
  rewrite levenshtein_distance.
  pose proof (edits_lengths (distance_sound a b)).
  pose proof (distance_bounded a b). lia.
Qed.

(** X3.  [similarity] is symmetric and never exceeds 1. *)
Theorem similarity_symmetric (R : Runtime) (a b : jsstring) :
  similarity a b = similarity b a /\ similarity a b <= 1.
Proof. split; [apply similarity_sym | apply similarity_le_1]. Qed.

(** X4.  For two strings that do not trim to nothing, [similarity] is 1
    exactly when the trimmed strings are equal after lower-casing. *)
Theorem similarity_perfect (R : Runtime) (a b : jsstring) :
  trim a <> [] -> trim b <> [] ->
  (similarity a b == 1 <-> toLowerCase (trim a) = toLowerCase (trim b)).
Proof. apply similarity_one. Qed.

Lemma similarity_perfect_witness :
  similarity (R := node) (lit " Jane ") (lit "JANE") == 1.
Proof.
  apply (@similarity_perfect node (lit " Jane ") (lit "JANE")).
  - vm_compute. discriminate.
  - vm_compute. discriminate.
  - reflexivity.
Defined.

(** X5.  [similarity] is not negative when lower-casing does not lengthen
    the two trimmed strings; with the bound above it is then in [0, 1]. *)
Theorem similarity_unit_interval (R : Runtime) (a b : jsstring) :
  (length (toLowerCase (trim a)) <= length (trim a))%nat ->
  (length (toLowerCase (trim b)) <= length (trim b))%nat ->
  0 <= similarity a b <= 1.
Proof.
  intros Ha Hb. split; [now apply similarity_ge_0 | apply similarity_le_1].
Qed.

Lemma similarity_unit_interval_witness :
  0 <= similarity (R := node) (lit "Jane Doe") (lit "J. Doe") <= 1.
Proof.
  apply (@similarity_unit_interval node (lit "Jane Doe") (lit "J. Doe"));
    vm_compute; lia.
Defined.

(** X6.  [areNicknameVariants] is an equivalence on names: reflexive,
    symmetric and, because no name of the table sits in two groups,
    transitive. *)
Theorem areNicknameVariants_equivalence (R : Runtime) (n1 n2 n3 : jsstring) :
  areNicknameVariants n1 n1 = true
  /\ areNicknameVariants n1 n2 = areNicknameVariants n2 n1
  /\ (areNicknameVariants n1 n2 = true -> areNicknameVariants n2 n3 = true ->
      areNicknameVariants n1 n3 = true).
Proof.
  split; [apply areNicknameVariants_refl|].
  split; [apply areNicknameVariants_sym | apply areNicknameVariants_trans].
Qed.

Lemma areNicknameVariants_equivalence_witness :
  areNicknameVariants (R := node) (lit "Bill") (lit "billy") = true.
Proof.
  apply (proj2 (proj2 (@areNicknameVariants_equivalence node
           (lit "Bill") (lit "William") (lit "billy")))); reflexivity.
Defined.

(** X7.  What [normalizeLocation] returns has no period and no comma, no
    white space other than single U+0020 between other units, and no white
    space at either end. *)
Theorem normalizeLocation_shape (R : Runtime) (loc : jsstring) :
  canonicalLocation (normalizeLocation loc) = true.
Proof. apply normalizeLocation_canonical. Qed.

(** X8.  [normalizeLocation] leaves its own result unchanged whenever
    lower-casing does. *)
Theorem normalizeLocation_idempotent (R : Runtime) (loc : jsstring) :
  toLowerCase (normalizeLocation loc) = normalizeLocation loc ->
  normalizeLocation (normalizeLocation loc) = normalizeLocation loc.
Proof.
  intro H. apply normalizeLocation_fixed; [apply normalizeLocation_canonical | exact H].
Qed.

Lemma normalizeLocation_idempotent_witness :
  normalizeLocation (R := node) (lit "san francisco ca")
  = lit "san francisco ca".
Proof.
  apply (@normalizeLocation_idempotent node (lit " San  Francisco, CA.")).
  reflexivity.
Defined.

(** X9.  [matchLocation] does not depend on the order of its operands, and
    neither does [matchLocationAlias]. *)
Theorem matchLocation_symmetric (R : Runtime) (p q : option jsstring)
    (loc1 loc2 : jsstring) :
  matchLocation p q = matchLocation q p
  /\ matchLocationAlias loc1 loc2 = matchLocationAlias loc2 loc1.
Proof. split; [apply matchLocation_sym | apply matchLocationAlias_sym]. Qed.

Lemma extractYearFromBio_years_witness :
  (search bornPattern (lit "25yo developer") <> None /\ (0 <= 2001 <= 9999)%Z)
  \/ (search bornPattern (lit "25yo developer") = None
      /\ (@currentYear node - 99 <= 2001 <= @currentYear node - 11)%Z).
Proof.
  apply (@extractYearFromBio_years node (lit "25yo developer") 2001%Z).
  reflexivity.
Defined.

Lemma matchName_exact_witness :
  matchName (R := node) (Some (lit " Jane   Doe")) (Some (lit "JANE DOE")) == 1.
Proof.
  apply (@matchName_exact node (Some (lit " Jane   Doe")) (Some (lit "JANE DOE"))).
  split; [vm_compute; discriminate | reflexivity].
Defined.

Lemma matchEmployerInBio_partial_credit_witness :
  if includes (toLowerCase (Runtime := node) (lit "Working at Acme"))
       (toLowerCase (Runtime := node) (lit "Acme Corporation"))
  then matchEmployerInBio (R := node) (Some (lit "Acme Corporation"))
         (Some (lit "Working at Acme")) = 1
  else 0 <= matchEmployerInBio (R := node) (Some (lit "Acme Corporation"))
              (Some (lit "Working at Acme")) <= 0.5.
Proof.
  apply (@matchEmployerInBio_partial_credit node (lit "Acme Corporation")
           (lit "Working at Acme")); discriminate.
Defined.

Lemma matchJobTitleInBio_partial_credit_witness :
  if includes (toLowerCase (Runtime := node) (lit "Senior Engineer"))
       (toLowerCase (Runtime := node) (lit "Software Engineer"))
  then matchJobTitleInBio (R := node) (Some (lit "Software Engineer"))
         (Some (lit "Senior Engineer")) = 1
  else 0 <= matchJobTitleInBio (R := node) (Some (lit "Software Engineer"))
              (Some (lit "Senior Engineer")) <= 0.6.
Proof.
  apply (@matchJobTitleInBio_partial_credit node (lit "Software Engineer")
           (lit "Senior Engineer")); discriminate.
Defined.

(** X15.  Three matchers only ever return their tiers: the email matcher
    0, 0.7, 0.9 or 1, the phone matcher 0, 0.8 or 1, the date-of-birth
    matcher 0, 0.7 or 1. *)
Theorem tiered_matchers (R : Runtime) emails username phones bio dob :
  In (matchEmailToUsername emails username) [0; 0.7; 0.9; 1]
  /\ In (matchPhoneInBio phones bio) [0; 0.8; 1]
  /\ In (matchDateOfBirth dob bio) [0; 0.7; 1].
Proof.
  split; [apply matchEmailToUsername_tiers|].
  split; [apply matchPhoneInBio_tiers | apply matchDateOfBirth_tiers].
Qed.

Lemma matchEmailToUsername_numeric_username_witness :
  0.7 <= matchEmailToUsername (R := node) (Some (One (lit "alice@x.com")))
           (Some (lit "2024")).
Proof.
  apply (@matchEmailToUsername_numeric_username node (One (lit "alice@x.com"))
           (lit "2024")); try reflexivity; discriminate.
Defined.

Lemma matchPhoneInBio_short_witness :
  matchPhoneInBio (Some (One (lit "123"))) (Some (lit "Call 123")) = 0.
Proof. apply matchPhoneInBio_short. reflexivity. Defined.

Lemma matchPhoneInBio_sparse_bio_witness :
  matchPhoneInBio (Some (One (lit "555-123-4567")))
    (Some (lit "Random number 12345")) = 0.
Proof. apply matchPhoneInBio_sparse_bio. vm_compute. lia. Defined.

(** X19.  The result of [calculateMatchScore] carries the profile it was
    given and, as factors, one entry per pair whose operands are both
    present, under its fixed key, with the matcher's score, in the order
    name, location, employer, job title, email, phone, date of birth. *)
Theorem calculateMatchScore_reports (R : Runtime) person profile :
  MatchResult.profile (calculateMatchScore person profile) = profile
  /\ MatchResult.factors (calculateMatchScore person profile)
     = reportedFactors person profile.
Proof.
  split; [apply calculateMatchScore_profile | apply calculateMatchScore_factors].
Qed.

Lemma calculateMatchScore_no_bio_witness :
  calculateMatchScore (R := node) janePerson snakeProfile
  = calculateMatchScore (R := node) (withoutBioFields janePerson) snakeProfile.
Proof. apply calculateMatchScore_no_bio. reflexivity. Defined.

(** X21.  The two spellings of the display name: while [displayName] is
    there and not empty, [display_name] is not looked at; otherwise
    [display_name] counts exactly as if it had been given as
    [displayName]. *)
Theorem calculateMatchScore_display_name (R : Runtime) person profile :
  (truthy (Profile.displayName profile) = true ->
   forall other,
     sameVerdict (calculateMatchScore person profile)
       (calculateMatchScore person (withDisplay_name other profile)))
  /\ (truthy (Profile.displayName profile) = false ->
      sameVerdict (calculateMatchScore person profile)
        (calculateMatchScore person
           (withDisplayName (Profile.display_name profile) profile))).
Proof.
  split.
  - intros H other. now apply display_name_ignored.
  - apply display_name_fallback.
Qed.

Lemma calculateMatchScore_display_name_witness :
  sameVerdict (calculateMatchScore (R := node) janePerson snakeProfile)
    (calculateMatchScore (R := node) janePerson
       (withDisplayName (Some (lit "Jane Doe")) snakeProfile)).
Proof.
  apply (proj2 (@calculateMatchScore_display_name node janePerson snakeProfile)).
  reflexivity.
Defined.

(** X22.  When every matcher that was consulted answers 1 and at least one
    was consulted, the overall score is 1; when every one answers 0, it
    is 0. *)
Theorem calculateMatchScore_extremes (R : Runtime) person profile :
  (applicable (fieldPairs person profile) <> [] ->
   Forall (fun f => matcherScore f == 1) (applicable (fieldPairs person profile)) ->
   MatchResult.score (calculateMatchScore person profile) == 1)
  /\ (Forall (fun f => matcherScore f == 0) (applicable (fieldPairs person profile)) ->
      MatchResult.score (calculateMatchScore person profile) == 0).
Proof.
  split.
  - intros Hne H1. rewrite calculateMatchScore_overall.
    now apply overallScore_all_one.
  - intro H0. rewrite calculateMatchScore_overall.
    now apply overallScore_all_zero.
Qed.

Lemma calculateMatchScore_extremes_witness :
  MatchResult.score (calculateMatchScore (R := node) janePerson janeProfile) == 1.
Proof.
  apply (proj1 (@calculateMatchScore_extremes node janePerson janeProfile)).
  - vm_compute. discriminate.
  - vm_compute. repeat constructor.
Defined.



(** X24.  [matchProfiles] hands back the profiles it was given, each once
    and unchanged, and every result is the score of its own profile. *)
Theorem matchProfiles_keeps_profiles (R : Runtime) person profiles :
  Permutation (map MatchResult.profile (matchProfiles person profiles)) profiles
  /\ (forall r, In r (matchProfiles person profiles) ->
        In (MatchResult.profile r) profiles
        /\ r = calculateMatchScore person (MatchResult.profile r)).
Proof. split; [apply matchProfiles_profiles | apply matchProfiles_each]. Qed.

Lemma matchProfiles_keeps_profiles_witness :
  In (MatchResult.profile (calculateMatchScore (R := node) janePerson janeProfile))
    [snakeProfile; janeProfile].
Proof.
  apply (proj2 (@matchProfiles_keeps_profiles node janePerson
                  [snakeProfile; janeProfile])).
  vm_compute. auto.
Defined.

Lemma postMatch_ok_witness :
  exists data,
    MatchRequestSchema (requestWith [profileJson "jane" "Jane"]) = Some data
    /\ length (matchProfiles (R := node) (Sample.named (lit "Jane"))
                 [Sample.shown "jane" "Jane"])
       = length (MatchRequest.profiles data)
    /\ (1 <= length (matchProfiles (R := node) (Sample.named (lit "Jane"))
                      [Sample.shown "jane" "Jane"]) <= 20)%nat
    /\ Permutation
         (map MatchResult.profile
            (matchProfiles (R := node) (Sample.named (lit "Jane"))
               [Sample.shown "jane" "Jane"]))
         (MatchRequest.profiles data)
    /\ StronglySorted (fun x y => MatchResult.score y <= MatchResult.score x)
         (matchProfiles (R := node) (Sample.named (lit "Jane"))
            [Sample.shown "jane" "Jane"]).
Proof.
  apply (@postMatch_ok node (requestWith [profileJson "jane" "Jane"])).
  reflexivity.
Defined.

(** X26.  [POST /match] answers 400 when the body has no [person] or no
    [profiles], when [profiles] is an array that is empty or longer than
    20, and when one of its profiles lacks a string [platform] or
    [username]. *)
Theorem postMatch_bad_request (R : Runtime) (props : list (jsstring * json)) :
  (forall xs, get props (lit "profiles") = Some (JArray xs) ->
     length xs = 0%nat \/ (20 < length xs)%nat ->
     status (postMatch (Some (JObject props))) = 400%nat)
  /\ (forall xs p, get props (lit "profiles") = Some (JArray xs) ->
        In (JObject p) xs ->
        Zod.string (get p (lit "platform")) = None
        \/ Zod.string (get p (lit "username")) = None ->
        status (postMatch (Some (JObject props))) = 400%nat)
  /\ (get props (lit "person") = None ->
      status (postMatch (Some (JObject props))) = 400%nat)
  /\ (get props (lit "profiles") = None ->
      status (postMatch (Some (JObject props))) = 400%nat).
Proof.
  destruct (@postMatch_rejects R props) as (Hsize & Hprofile & Hperson & Hnone).
  split; [intros xs Hg Hl; now rewrite (Hsize xs Hg Hl)|].
  split; [intros xs p Hg Hin Hp; now rewrite (Hprofile xs p Hg Hin Hp)|].
  split; [intro H; now rewrite (Hperson H) | intro H; now rewrite (Hnone H)].
Qed.

Lemma postMatch_bad_request_witness :
  status (postMatch (R := node) (requestWith [])) = 400%nat.
Proof.
  apply (proj1 (@postMatch_bad_request node
           [(lit "person", JObject [field "name" "Jane"]);
            (lit "profiles", JArray [])]) []).
  - reflexivity.
  - left. reflexivity.
Defined.

End Further.
